(** * Ear-training app: notation parser and round state machine

    A shallow embedding of the component module of the ear-training app
    (the file that defines [tokenizeNotes], [normalizeNote],
    [parseSequences], [pickRandom] and the [App] component) and of the
    audio module's [playSequence], together with the properties the prose
    specification states about them.

    JavaScript strings are sequences of UTF-16 code units; they are
    modelled as lists of code units, each a natural number ([N]). *)

From Stdlib Require Import List NArith ZArith QArith Qround Bool Lia String Ascii.
From Stdlib Require PrimFloat Uint63.
Import ListNotations.

Open Scope N_scope.

(** ** Strings *)

Definition char := N.
Definition jsstring := list char.

(** A literal of the source, written as a Rocq string (ASCII only). *)
Definition lit (s : string) : jsstring :=
  List.map N_of_ascii (list_ascii_of_string s).

Definition inRange (lo hi c : char) : bool := (lo <=? c) && (c <=? hi).

(** [\s] of a JavaScript regular expression, which is also the set that
    [String.prototype.trim] removes: WhiteSpace and LineTerminator. *)
Definition isWhiteSpace (c : char) : bool :=
  inRange 9 13 c            (* \t \n \v \f \r *)
  || (c =? 32)              (* space *)
  || (c =? 160)             (* U+00A0 *)
  || (c =? 5760)            (* U+1680 *)
  || inRange 8192 8202 c    (* U+2000 .. U+200A *)
  || (c =? 8232) || (c =? 8233)   (* U+2028, U+2029 *)
  || (c =? 8239)            (* U+202F *)
  || (c =? 8287)            (* U+205F *)
  || (c =? 12288)           (* U+3000 *)
  || (c =? 65279).          (* U+FEFF *)

(** [[A-Ga-g]], [\d] and [[,']]. *)
Definition isNoteLetter (c : char) : bool := inRange 65 71 c || inRange 97 103 c.
Definition isDigit (c : char) : bool := inRange 48 57 c.
Definition isModifier (c : char) : bool := (c =? 44) || (c =? 39).

(** [toUpperCase] and [toLowerCase] on one code unit.  The source applies
    them to a letter matched by [[A-Ga-g]] only, where they are the ASCII
    case mappings. *)
Definition toUpperCase (c : char) : char := if inRange 97 122 c then c - 32 else c.
Definition toLowerCase (c : char) : char := if inRange 65 90 c then c + 32 else c.

(** [s.split(sep)] for a one-character separator. *)
Fixpoint split (sep : char) (s : jsstring) : list jsstring :=
  match s with
  | [] => [[]]
  | c :: rest =>
      if c =? sep then [] :: split sep rest
      else match split sep rest with
           | piece :: pieces => (c :: piece) :: pieces
           | [] => [[c]]
           end
  end.

Fixpoint dropWhile {A} (p : A -> bool) (l : list A) : list A :=
  match l with
  | [] => []
  | x :: r => if p x then dropWhile p r else l
  end.

Fixpoint takeWhile {A} (p : A -> bool) (l : list A) : list A :=
  match l with
  | [] => []
  | x :: r => if p x then x :: takeWhile p r else []
  end.

(** [s.trim()]. *)
Definition trim (s : jsstring) : jsstring :=
  rev (dropWhile isWhiteSpace (rev (dropWhile isWhiteSpace s))).

(** [Boolean(s)] for a string: the empty string is the only falsy one. *)
Definition truthy (s : jsstring) : bool :=
  match s with [] => false | _ => true end.

(** ** The notation parser *)

Record Sequence := mkSequence { notes : list jsstring; degrees : list nat }.

(** [NOTE_TO_DEGREE[k]], [None] standing for [undefined]. *)
Definition NOTE_TO_DEGREE (k : char) : option nat :=
  if k =? 67 then Some 1%nat        (* C *)
  else if k =? 68 then Some 2%nat   (* D *)
  else if k =? 69 then Some 3%nat   (* E *)
  else if k =? 70 then Some 4%nat   (* F *)
  else if k =? 71 then Some 5%nat   (* G *)
  else if k =? 65 then Some 6%nat   (* A *)
  else if k =? 66 then Some 7%nat   (* B *)
  else None.

(** All matches, left to right, of the global regular expression of
    [tokenizeNotes]: a letter of [[A-Ga-g]] followed by either one digit or
    a starred class of the two modifiers.  At a letter the digit alternative
    is tried first; otherwise the star takes the longest run of modifiers
    (the inner loop [star]).  A position where no match starts is passed
    over. *)
Fixpoint matchAll (s : jsstring) : list jsstring :=
  match s with
  | [] => []
  | c :: rest =>
      if isNoteLetter c then
        match rest with
        | d :: rest' =>
            if isDigit d then [c; d] :: matchAll rest'
            else
              (fix star (acc : jsstring) (r : jsstring) {struct r} : list jsstring :=
                 match r with
                 | m :: r' =>
                     if isModifier m then star (acc ++ [m]) r'
                     else (c :: acc) :: matchAll r
                 | [] => [c :: acc]
                 end) [] rest
        | [] => [[c]]
        end
      else matchAll rest
  end.

Definition tokenizeNotes (input : jsstring) : list jsstring :=
  let stripped := filter (fun c => negb (isWhiteSpace c)) input in
  matchAll stripped.

(** One step of the loop over the modifiers. *)
Definition applyModifier (octave : Z) (ch : char) : Z :=
  let octave := if ch =? 44 then (octave - 1)%Z else octave in
  let octave := if ch =? 39 then (octave + 1)%Z else octave in
  octave.

(** The decimal digit of a number between 0 and 9, which is what string
    concatenation yields for the clamped octave. *)
Definition digitOf (z : Z) : char := 48 + Z.to_N z.

(** The match of the explicit-octave expression of [normalizeNote], anchored
    at both ends: one letter of [[A-Ga-g]] and one digit, the two captured
    groups. *)
Definition explicitMatch (token : jsstring) : option (char * char) :=
  match token with
  | [l; d] => if isNoteLetter l && isDigit d then Some (l, d) else None
  | _ => None
  end.

(** The match of the ABC expression of [normalizeNote], anchored at both
    ends: one letter of [[A-Ga-g]] and a possibly empty run of modifiers. *)
Definition abcMatch (token : jsstring) : option (char * jsstring) :=
  match token with
  | l :: modifiers =>
      if isNoteLetter l && forallb isModifier modifiers then Some (l, modifiers)
      else None
  | [] => None
  end.

(** [None] stands for [null]. *)
Definition normalizeNote (token : jsstring) : option jsstring :=
  match explicitMatch token with
  | Some (l, d) => Some [toUpperCase l; d]
  | None =>
      match abcMatch token with
      | None => None
      | Some (letter, modifiers) =>
          let isLower := letter =? toLowerCase letter in
          let octave := if isLower then 5%Z else 4%Z in
          let octave := fold_left applyModifier modifiers octave in
          let octave := Z.max 0 (Z.min 7 octave) in
          Some [toUpperCase letter; digitOf octave]
      end
  end.

(** [NOTE_TO_DEGREE[normalized[0]] ?? 0]. *)
Definition degreeOf (normalized : jsstring) : nat :=
  match normalized with
  | k :: _ => match NOTE_TO_DEGREE k with Some d => d | None => 0%nat end
  | [] => 0%nat
  end.

(** The loop over the tokens of one segment, with its early return. *)
Fixpoint collect (tokens : list jsstring) (notes : list jsstring) (degrees : list nat)
  : Sequence :=
  match tokens with
  | [] => mkSequence notes degrees
  | tok :: rest =>
      match normalizeNote tok with
      | None => mkSequence [] []
      | Some normalized =>
          collect rest (notes ++ [normalized]) (degrees ++ [degreeOf normalized])
      end
  end.

(** The callback of the second [map] of [parseSequences]. *)
Definition sequenceOfTokens (tokens : list jsstring) : Sequence :=
  collect tokens [] [].

(** The predicate of the last [filter] of [parseSequences]. *)
Definition keep (seq : Sequence) : bool :=
  (0 <? List.length (notes seq))%nat && forallb (fun d => (0 <? d)%nat) (degrees seq).

(** The segments of the parameter: split on [;], trimmed, empty ones dropped. *)
Definition segments (param : jsstring) : list jsstring :=
  filter truthy (List.map trim (split 59 param)).

Definition parseSequences (param : jsstring) : list Sequence :=
  filter keep
    (List.map (fun seqStr => sequenceOfTokens (tokenizeNotes seqStr)) (segments param)).

(** What one segment, given by its tokens, contributes to the result. *)
Definition contribution (tokens : list jsstring) : list Sequence :=
  filter keep [sequenceOfTokens tokens].

(** ** Notions used to state the properties of the parser *)

(** The next character is not a digit, so the digit alternative fails. *)
Definition noDigitAhead (rest : jsstring) : bool :=
  match rest with
  | d :: _ => negb (isDigit d)
  | [] => true
  end.

(** The two shapes a token can take. *)
Inductive tokenShape : jsstring -> Prop :=
| ShapeExplicit l d :
    isNoteLetter l = true -> isDigit d = true -> tokenShape [l; d]
| ShapeAbc l modifiers :
    isNoteLetter l = true -> forallb isModifier modifiers = true ->
    tokenShape (l :: modifiers).

(** The octave of an ABC token before it is clamped. *)
Definition rawOctave (letter : char) (modifiers : jsstring) : Z :=
  fold_left applyModifier modifiers (if letter =? toLowerCase letter then 5%Z else 4%Z).

(** A note in canonical form: an uppercase letter A-G and one digit. *)
Definition canonical (n : jsstring) : Prop :=
  exists l d, n = [l; d] /\ 65 <= l <= 71 /\ isDigit d = true.

(** All the tokens normalized, if each of them can be. *)
Fixpoint normalizeAll (tokens : list jsstring) : option (list jsstring) :=
  match tokens with
  | [] => Some []
  | tok :: rest =>
      match normalizeNote tok, normalizeAll rest with
      | Some n, Some ns => Some (n :: ns)
      | _, _ => None
      end
  end.

(** The octave digit of a note lies between 0 and 7. *)
Definition octaveClamped (n : jsstring) : bool :=
  match n with
  | [_; d] => inRange 48 55 d
  | _ => false
  end.

(** ** Notions used to state further properties of the parser *)

(** The input of [tokenizeNotes] once its white space is removed. *)
Definition stripWhiteSpace (s : jsstring) : jsstring :=
  filter (fun c => negb (isWhiteSpace c)) s.

(** The number of letters A-G, in either case, of a string. *)
Definition countLetters (s : jsstring) : nat :=
  List.length (filter isNoteLetter s).

(** What one piece between two semicolons contributes to the result. *)
Definition pieceContribution (piece : jsstring) : list Sequence :=
  contribution (tokenizeNotes piece).

(** ** The component

    The state of the [App] component is the values of its [useState] hooks.
    The hooks [hasKeyboard], [useSolfege] and [pressedKey] only drive the
    display and are left out.

    A [Sequence] object and the array of them are compared by reference in
    the source ([item !== exclude], the dependency list of [useCallback]),
    so both carry the address they were allocated at. *)

Inductive GameState := idle | playing | answering | result.

Record SeqRef := mkRef { addr : nat; obj : Sequence }.
Record SeqArray := mkArray { arrAddr : nat; items : list SeqRef }.

Definition sameRef (a b : SeqRef) : bool := (addr a =? addr b)%nat.

Record Hooks := mkHooks {
  sequences : SeqArray;
  current : option SeqRef;
  userAnswer : list nat;
  gameState : GameState;
  isCorrect : option bool;
  showAnswer : bool;
  isPlaying : bool;
  isLoading : bool
}.

(** The variables of a render that the body of [startRound] reads.
    [useCallback(..., [sequences])] keeps the function of the render in which
    [sequences] last changed, and with it that render's [current]. *)
Record Closure := mkClosure { cl_sequences : SeqArray; cl_current : option SeqRef }.

(** What runs after an [await playSequence(...)]. *)
Inductive Kont := AfterStartRound | AfterReplay | AfterTryAgain.

(** A pending [setTimeout] of [playSequence]: a playback in flight. *)
Record Timer := mkTimer { tid : nat; due : N; kont : Kont }.

Record App := mkApp {
  hooks : Hooks;
  startRoundMemo : Closure;
  timers : list Timer;          (* playbacks not yet resolved *)
  now : N;                      (* the clock, in milliseconds *)
  played : list (list jsstring) (* every call of [playSequence], in order *)
}.

Definition withHooks (f : Hooks -> Hooks) (a : App) : App :=
  mkApp (f (hooks a)) (startRoundMemo a) (timers a) (now a) (played a).

Definition setSequences (v : SeqArray) : App -> App :=
  withHooks (fun h => mkHooks v (current h) (userAnswer h) (gameState h)
                              (isCorrect h) (showAnswer h) (isPlaying h) (isLoading h)).
Definition setCurrent (v : option SeqRef) : App -> App :=
  withHooks (fun h => mkHooks (sequences h) v (userAnswer h) (gameState h)
                              (isCorrect h) (showAnswer h) (isPlaying h) (isLoading h)).
Definition setUserAnswer (f : list nat -> list nat) : App -> App :=
  withHooks (fun h => mkHooks (sequences h) (current h) (f (userAnswer h)) (gameState h)
                              (isCorrect h) (showAnswer h) (isPlaying h) (isLoading h)).
Definition setGameState (v : GameState) : App -> App :=
  withHooks (fun h => mkHooks (sequences h) (current h) (userAnswer h) v
                              (isCorrect h) (showAnswer h) (isPlaying h) (isLoading h)).
Definition setIsCorrect (v : option bool) : App -> App :=
  withHooks (fun h => mkHooks (sequences h) (current h) (userAnswer h) (gameState h)
                              v (showAnswer h) (isPlaying h) (isLoading h)).
Definition setShowAnswer (v : bool) : App -> App :=
  withHooks (fun h => mkHooks (sequences h) (current h) (userAnswer h) (gameState h)
                              (isCorrect h) v (isPlaying h) (isLoading h)).
Definition setIsPlaying (v : bool) : App -> App :=
  withHooks (fun h => mkHooks (sequences h) (current h) (userAnswer h) (gameState h)
                              (isCorrect h) (showAnswer h) v (isLoading h)).
Definition setIsLoading (v : bool) : App -> App :=
  withHooks (fun h => mkHooks (sequences h) (current h) (userAnswer h) (gameState h)
                              (isCorrect h) (showAnswer h) (isPlaying h) v).

(** A render after state changed.  [useCallback] compares the dependency
    [sequences] with the one of the stored function by [Object.is] and
    stores the new function, closing over the values of this render, only
    when they differ.  [replay] and [tryAgain] list every variable they read
    as a dependency and the other handlers are made anew at each render, so
    they read the present state. *)
Definition render (a : App) : App :=
  let h := hooks a in
  if (arrAddr (sequences h) =? arrAddr (cl_sequences (startRoundMemo a)))%nat then a
  else mkApp h (mkClosure (sequences h) (current h)) (timers a) (now a) (played a).

(** [Math.floor(rnd * len)] for the value [rnd] of [Math.random()], with the
    product taken exactly.  The source multiplies in double precision, where
    the product is rounded and can reach the next whole number, so the index
    here names a member of the array that [rnd] can give, not for every
    [rnd] the very member the source takes; like the source's index it lies
    below [len]. *)
Definition floorIndex (rnd : Q) (len : nat) : nat :=
  Z.to_nat (Qfloor (rnd * inject_Z (Z.of_nat len))).

(** [pickRandom(arr, exclude)], given the value [rnd] that [Math.random()]
    returns.  [None] as the result stands for [undefined], [None] as
    [exclude] for [null]. *)
Definition pickRandom {T} (same : T -> T -> bool) (arr : list T) (exclude : option T)
    (rnd : Q) : option T :=
  if (List.length arr <=? 1)%nat then nth_error arr 0
  else
    let filtered :=
      filter (fun item => match exclude with
                          | Some e => negb (same item e)
                          | None => true
                          end) arr in
    nth_error filtered (floorIndex rnd (List.length filtered)).

(** The arithmetic of [playSequence], in the double precision of the
    source's numbers. *)
Module Delay.
Import PrimFloat.
Local Open Scope float_scope.

Definition noteDuration : float := 0.5.

(** The number that the literal [0.1] denotes. *)
Definition gap : float := 0x1.999999999999ap-4.

(** [notes.length] as a number. *)
Definition lengthOf (count : nat) : float :=
  of_uint63 (Uint63.of_Z (Z.of_nat count)).

(** [notes.length * (noteDuration + gap)]. *)
Definition totalDuration (count : nat) : float :=
  lengthOf count * (noteDuration + gap).

(** [totalDuration * 1000], the delay handed to [setTimeout]. *)
Definition timeout (count : nat) : float := totalDuration count * 1000.

(** The whole part of a number that is not negative: [frshiftexp] gives
    the mantissa in [0.5, 1) and the exponent raised by 2101, and
    [normfr_mantissa] the mantissa as a whole number of 53 bits. *)
Definition integerPart (x : float) : Z :=
  let (m, e) := frshiftexp x in
  Z.shiftl (Uint63.to_Z (normfr_mantissa m)) (Uint63.to_Z e - 2101 - 53).
End Delay.

(** The delay, in milliseconds, of the timer of [playSequence].  The timer
    counts whole milliseconds: the delay handed to [setTimeout] is taken
    without its fraction. *)
Definition totalDurationMs (count : nat) : N :=
  Z.to_N (Delay.integerPart (Delay.timeout count)).

(** [playSequence(notes)] followed by the continuation [k]: the call is
    recorded and its timer is pending until the clock reaches [due]. *)
Definition playSequence (notes : list jsstring) (k : Kont) (a : App) : App :=
  mkApp (hooks a) (startRoundMemo a)
        (timers a ++ [mkTimer (List.length (played a))
                              (now a + totalDurationMs (List.length notes)) k])
        (now a)
        (played a ++ [notes]).

Definition startRound (rnd : Q) (a : App) : App :=
  let sequences := cl_sequences (startRoundMemo a) in
  let current := cl_current (startRoundMemo a) in
  if (List.length (items sequences) =? 0)%nat then a
  else
    let seq := pickRandom sameRef (items sequences) current rnd in
    let a := setCurrent seq a in
    let a := setUserAnswer (fun _ => []) a in
    let a := setIsCorrect None a in
    let a := setShowAnswer false a in
    let a := setGameState playing a in
    let a := setIsPlaying true a in
    match seq with
    | Some s => render (playSequence (notes (obj s)) AfterStartRound a)
    | None => render a   (* [seq!.notes] throws: nothing is played *)
    end.

Definition replay (a : App) : App :=
  match current (hooks a) with
  | None => a
  | Some cur =>
      if isPlaying (hooks a) then a
      else render (playSequence (notes (obj cur)) AfterReplay (setIsPlaying true a))
  end.

Definition addDegree (degree : nat) (a : App) : App :=
  match gameState (hooks a) with
  | answering => render (setUserAnswer (fun prev => prev ++ [degree]) a)
  | _ => a
  end.

Definition removeLast (a : App) : App :=
  match gameState (hooks a) with
  | answering => render (setUserAnswer (fun prev => removelast prev) a)
  | _ => a
  end.

(** [arr.every((d, i) => p(d, i))], from index [i] on. *)
Fixpoint everyFrom {A} (p : A -> nat -> bool) (arr : list A) (i : nat) : bool :=
  match arr with
  | [] => true
  | d :: rest => p d i && everyFrom p rest (S i)
  end.

(** The value of [correct] in [submit]; an index past the end of [degrees]
    reads [undefined], which is equal to no number. *)
Definition grade (userAnswer degrees : list nat) : bool :=
  (List.length userAnswer =? List.length degrees)%nat
  && everyFrom (fun d i => match nth_error degrees i with
                           | Some t => (d =? t)%nat
                           | None => false
                           end) userAnswer 0.

Definition submit (a : App) : App :=
  match current (hooks a) with
  | None => a
  | Some cur =>
      if (List.length (userAnswer (hooks a)) =? 0)%nat then a
      else
        let correct := grade (userAnswer (hooks a)) (degrees (obj cur)) in
        render (setGameState result (setIsCorrect (Some correct) a))
  end.

Definition revealAnswer (a : App) : App := render (setShowAnswer true a).

Definition tryAgain (a : App) : App :=
  match current (hooks a) with
  | None => a
  | Some cur =>
      if isPlaying (hooks a) then a
      else
        let a := setUserAnswer (fun _ => []) a in
        let a := setIsCorrect None a in
        let a := setGameState playing a in
        let a := setIsPlaying true a in
        render (playSequence (notes (obj cur)) AfterTryAgain a)
  end.

(** The code after the [await], run when the timer of the playback fires. *)
Definition resume (k : Kont) (a : App) : App :=
  match k with
  | AfterStartRound => render (setGameState answering (setIsPlaying false a))
  | AfterReplay => render (setIsPlaying false a)
  | AfterTryAgain => render (setGameState answering (setIsPlaying false a))
  end.

(** The pending timer that is due first; among equals, the one set first. *)
Fixpoint earliest (ts : list Timer) : option Timer :=
  match ts with
  | [] => None
  | t :: rest =>
      match earliest rest with
      | None => Some t
      | Some u => if due t <=? due u then Some t else Some u
      end
  end.

Definition fire (t : Timer) (a : App) : App :=
  resume (kont t)
    (mkApp (hooks a) (startRoundMemo a)
           (filter (fun u => negb (tid u =? tid t)%nat) (timers a))
           (N.max (now a) (due t)) (played a)).

Fixpoint runDue (fuel : nat) (t : N) (a : App) : App :=
  match fuel with
  | O => a
  | S fuel' =>
      match earliest (timers a) with
      | Some tm => if due tm <=? t then runDue fuel' t (fire tm a) else a
      | None => a
      end
  end.

(** Time passes until the clock shows [t]: the timers due by then fire. *)
Definition advanceTo (t : N) (a : App) : App :=
  let a := runDue (List.length (timers a)) t a in
  mkApp (hooks a) (startRoundMemo a) (timers a) (N.max (now a) t) (played a).

(** A playback has been requested and has not resolved yet. *)
Definition inFlight (a : App) : bool :=
  match timers a with [] => false | _ => true end.

(** The keys the handler tells apart; [KeyDigit d] is the key of the digit
    [d], for which [parseInt(e.key)] is [d]. *)
Inductive Key := KeyEnter | KeySpace | KeyDigit (d : nat) | KeyBackspace
               | KeyR | KeyS | KeyOther.

Definition isEnterOrSpace (k : Key) : bool :=
  match k with KeyEnter | KeySpace => true | _ => false end.

Definition truthyCorrect (v : option bool) : bool :=
  match v with Some true => true | _ => false end.

(** The [keydown] handler; [rnd] is what [Math.random()] returns if it is
    called. *)
Definition keyHandler (rnd : Q) (key : Key) (a : App) : App :=
  let h := hooks a in
  match gameState h with
  | idle =>
      if negb (isLoading h) && isEnterOrSpace key then startRound rnd a else a
  | answering =>
      match key with
      | KeyDigit d =>
          if (1 <=? d)%nat && (d <=? 7)%nat then addDegree d a else a
      | KeyEnter | KeySpace => submit a
      | KeyBackspace => removeLast a
      | KeyR => replay a
      | _ => a
      end
  | result =>
      if isEnterOrSpace key && (truthyCorrect (isCorrect h) || showAnswer h)
      then startRound rnd a
      else if isEnterOrSpace key && negb (truthyCorrect (isCorrect h))
                && negb (showAnswer h)
      then tryAgain a
      else match key with
           | KeyS =>
               if negb (truthyCorrect (isCorrect h)) && negb (showAnswer h)
               then revealAnswer a else a
           | KeyR => replay a
           | _ => a
           end
  | playing => a
  end.

(** The objects of a parsed collection, allocated from address [start] on. *)
Fixpoint allocate (start : nat) (l : list Sequence) : list SeqRef :=
  match l with
  | [] => []
  | s :: rest => mkRef start s :: allocate (S start) rest
  end.

(** The component once mounted on the parameter [raw]: the first render
    with the initial state, then the effect that parses the parameter and
    stores the result, then the render this causes. *)
Definition initial : App :=
  let h := mkHooks (mkArray 0 []) None [] idle None false false true in
  mkApp h (mkClosure (sequences h) (current h)) [] 0 [].

Definition mount (raw : jsstring) : App :=
  render (setSequences (mkArray 1 (allocate 2 (parseSequences raw))) initial).

(** [loadAudio()] has resolved. *)
Definition audioLoaded (a : App) : App := render (setIsLoading false a).

(** A run of the component: the events, applied in order. *)
Definition run (events : list (App -> App)) (a : App) : App :=
  fold_left (fun a ev => ev a) events a.

(** ** Notions used to state the properties of the component *)

(** The stored [startRound] is the one of this render's [sequences]. *)
Definition memoFresh (a : App) : Prop :=
  arrAddr (cl_sequences (startRoundMemo a)) = arrAddr (sequences (hooks a)).

(** The stored [startRound] closes over the present [sequences] and over
    [current] as it was when [sequences] was set: [null]. *)
Definition staleClosure (a : App) : Prop :=
  startRoundMemo a = mkClosure (sequences (hooks a)) None.

(** A round has been started whenever anything of a round is there: with
    no chosen sequence the component is idle, the answer is empty and no
    playback is in flight. *)
Definition roundChosen (a : App) : Prop :=
  current (hooks a) = None ->
  gameState (hooks a) = idle /\ userAnswer (hooks a) = [] /\ timers a = [].

(** The states the component goes through once it is mounted on [raw]:
    the audio finishes loading, keys are pressed, time passes. *)
Inductive reachable (raw : jsstring) : App -> Prop :=
| reach_mount : reachable raw (mount raw)
| reach_loaded a : reachable raw a -> reachable raw (audioLoaded a)
| reach_key rnd key a :
    reachable raw a -> (0 <= rnd)%Q -> (rnd < 1)%Q ->
    reachable raw (keyHandler rnd key a)
| reach_time t a : reachable raw a -> reachable raw (advanceTo t a).

(** The state in which the first sequence of "CFGc;C,EGc" has been played
    and the answer 1 4 5 has been typed. *)
Definition answered145 : App :=
  run [audioLoaded; keyHandler 0 KeyEnter; advanceTo 2400;
       keyHandler 0 (KeyDigit 1); keyHandler 0 (KeyDigit 4); keyHandler 0 (KeyDigit 5)]
      (mount (lit "CFGc;C,EGc")).

(** A round has just been started on the one sequence of "CDE", of three
    notes, at time 0. *)
Definition threeNotesStarted : App :=
  run [audioLoaded; keyHandler 0 KeyEnter] (mount (lit "CDE")).

(** The events up to the end of a first round on the collection "C;D": the
    round starts with the first sequence, the answer 1 is given and graded
    correct. *)
Definition firstRoundDone : App :=
  run [audioLoaded; keyHandler 0 KeyEnter; advanceTo 600;
       keyHandler 0 (KeyDigit 1); keyHandler 0 KeyEnter]
      (mount (lit "C;D")).

(** The events on the collection "CDEFGAB;C" up to a playback that outlives
    its round: the first sequence is played (4200 ms) and answered, replayed
    at 5000 ms, the answer is submitted and graded correct, the next round
    starts at 5200 ms with the one-note sequence and its playback is over at
    5800 ms, while the replay lasts until 9200 ms. *)
Definition replayOutlivesRound : App :=
  run [audioLoaded; keyHandler 0 KeyEnter; advanceTo 4200;
       keyHandler 0 (KeyDigit 1); keyHandler 0 (KeyDigit 2); keyHandler 0 (KeyDigit 3);
       keyHandler 0 (KeyDigit 4); keyHandler 0 (KeyDigit 5); keyHandler 0 (KeyDigit 6);
       keyHandler 0 (KeyDigit 7);
       advanceTo 5000; keyHandler 0 KeyR;
       advanceTo 5100; keyHandler 0 KeyEnter;
       advanceTo 5200; keyHandler (1 # 2) KeyEnter;
       advanceTo 6000]
      (mount (lit "CDEFGAB;C")).

(** ** Notions used to state further properties of the component *)

(** The clock moves on to [t] and nothing else happens. *)
Definition tick (t : N) (a : App) : App :=
  mkApp (hooks a) (startRoundMemo a) (timers a) (N.max (now a) t) (played a).

(** The continuations that end the state [playing]: those of [startRound]
    and of [tryAgain]. *)
Definition endsRound (k : Kont) : bool :=
  match k with
  | AfterStartRound | AfterTryAgain => true
  | AfterReplay => false
  end.

Definition roundTimers (ts : list Timer) : list Timer :=
  filter (fun t => endsRound (kont t)) ts.

(** One thing that happens to the component: a handler runs where the
    [keydown] handler lets it run, the timer of a playback fires, or the
    clock moves on. *)
Inductive step (a : App) : App -> Prop :=
| step_loaded : step a (audioLoaded a)
| step_start rnd :
    (0 <= rnd)%Q -> (rnd < 1)%Q ->
    (gameState (hooks a) = idle /\ isLoading (hooks a) = false)
    \/ (gameState (hooks a) = result
        /\ (truthyCorrect (isCorrect (hooks a)) || showAnswer (hooks a)) = true) ->
    step a (startRound rnd a)
| step_addDegree d :
    (1 <= d <= 7)%nat -> step a (addDegree d a)
| step_removeLast : step a (removeLast a)
| step_submit : gameState (hooks a) = answering -> step a (submit a)
| step_replay :
    gameState (hooks a) = answering \/ gameState (hooks a) = result ->
    step a (replay a)
| step_tryAgain :
    gameState (hooks a) = result ->
    truthyCorrect (isCorrect (hooks a)) = false -> showAnswer (hooks a) = false ->
    step a (tryAgain a)
| step_revealAnswer :
    gameState (hooks a) = result ->
    truthyCorrect (isCorrect (hooks a)) = false -> showAnswer (hooks a) = false ->
    step a (revealAnswer a)
| step_fire tm : In tm (timers a) -> step a (fire tm a)
| step_tick t : step a (tick t a).

Inductive reaches (raw : jsstring) : App -> Prop :=
| reaches_mount : reaches raw (mount raw)
| reaches_step a b : reaches raw a -> step a b -> reaches raw b.

(** The buttons of the page.  [BtnDegree i] is the button at index [i] of
    the row of degrees, whose handler adds the degree [i + 1]. *)
Inductive Button := BtnStart | BtnDegree (i : nat) | BtnUndo | BtnReplay | BtnSubmit
                  | BtnTryAgain | BtnReveal | BtnNext.

Definition isEmpty {A} (l : list A) : bool :=
  match l with [] => true | _ => false end.

(** The button is on the page and is not disabled.  With an empty
    collection the component returns the notice and no button at all. *)
Definition clickable (b : Button) (a : App) : bool :=
  let h := hooks a in
  let wrong := negb (truthyCorrect (isCorrect h)) && negb (showAnswer h) in
  negb (isEmpty (items (sequences h)))
  && match b, gameState h with
     | BtnStart, idle => negb (isLoading h)
     | BtnDegree i, answering => (i <? 7)%nat
     | BtnUndo, answering => negb (isEmpty (userAnswer h))
     | BtnReplay, answering => negb (isPlaying h)
     | BtnSubmit, answering => negb (isEmpty (userAnswer h))
     | BtnTryAgain, result => wrong && negb (isPlaying h)
     | BtnReveal, result => wrong
     | BtnNext, result => truthyCorrect (isCorrect h) || showAnswer h
     | _, _ => false
     end.

(** The [onClick] handler of each button. *)
Definition onClick (rnd : Q) (b : Button) (a : App) : App :=
  match b with
  | BtnStart | BtnNext => startRound rnd a
  | BtnDegree i => addDegree (i + 1) a
  | BtnUndo => removeLast a
  | BtnReplay => replay a
  | BtnSubmit => submit a
  | BtnTryAgain => tryAgain a
  | BtnReveal => revealAnswer a
  end.

(** A click: nothing happens unless the button can be clicked. *)
Definition click (rnd : Q) (b : Button) (a : App) : App :=
  if clickable b a then onClick rnd b a else a.

(** The key that does what the button does. *)
Definition keyOf (b : Button) : Key :=
  match b with
  | BtnStart | BtnSubmit | BtnTryAgain | BtnNext => KeyEnter
  | BtnDegree i => KeyDigit (i + 1)
  | BtnUndo => KeyBackspace
  | BtnReplay => KeyR
  | BtnReveal => KeyS
  end.

(** ** The audio module

    The module keeps three variables, [audioCtx], [piano] and
    [loadingPromise].  Whether each of them is set is all that the code
    looks at, so the context and the player are not modelled further; the
    promise of [Soundfont.instrument] is pending, fulfilled or rejected.
    Two counters record the calls the module makes to the outside. *)

Inductive PromiseState := Pending | Fulfilled | Rejected.

Record Audio := mkAudio {
  audioCtx : bool;                       (* [audioCtx] is not [null] *)
  piano : bool;                          (* [piano] is not [null] *)
  loadingPromise : option PromiseState;
  contextsCreated : nat;                 (* calls of [new AudioContext()] *)
  instrumentsRequested : nat             (* calls of [Soundfont.instrument] *)
}.

Definition audioInitial : Audio := mkAudio false false None 0 0.

Definition getAudioContext (s : Audio) : Audio :=
  if audioCtx s then s
  else mkAudio true (piano s) (loadingPromise s)
               (S (contextsCreated s)) (instrumentsRequested s).

(** What the promise returned by [getPiano] is. *)
Inductive PianoResult :=
| ThePiano                (* resolved with the player already loaded *)
| TheLoad (p : PromiseState).   (* the promise of the one load *)

Definition getPiano (s : Audio) : Audio * PianoResult :=
  let s := getAudioContext s in
  if piano s then (s, ThePiano)
  else match loadingPromise s with
       | Some p => (s, TheLoad p)
       | None =>
           (mkAudio (audioCtx s) (piano s) (Some Pending)
                    (contextsCreated s) (S (instrumentsRequested s)),
            TheLoad Pending)
       end.

(** The promise of [Soundfont.instrument] settles; when it is fulfilled the
    callback of [then] stores the player. *)
Definition settle (ok : bool) (s : Audio) : Audio :=
  match loadingPromise s with
  | Some Pending =>
      if ok then mkAudio (audioCtx s) true (Some Fulfilled)
                         (contextsCreated s) (instrumentsRequested s)
      else mkAudio (audioCtx s) (piano s) (Some Rejected)
                   (contextsCreated s) (instrumentsRequested s)
  | _ => s
  end.

(** What happens to the module: [getPiano] is called, by [loadAudio] or by
    [playSequence], or the load settles. *)
Inductive AudioEvent := CallGetPiano | Settle (ok : bool).

Definition audioStep (s : Audio) (e : AudioEvent) : Audio :=
  match e with
  | CallGetPiano => fst (getPiano s)
  | Settle ok => settle ok s
  end.

Definition audioRun (events : list AudioEvent) : Audio :=
  fold_left audioStep events audioInitial.

(** What holds of the variables of the audio module at any time. *)
Definition audioInv (s : Audio) : Prop :=
  contextsCreated s = (if audioCtx s then 1 else 0)%nat
  /\ instrumentsRequested s
     = (match loadingPromise s with Some _ => 1 | None => 0 end)%nat
  /\ (loadingPromise s <> None -> audioCtx s = true)
  /\ (piano s = true <-> loadingPromise s = Some Fulfilled).

(** ** Facts about characters *)

Lemma inRange_spec lo hi c : inRange lo hi c = true <-> lo <= c <= hi.
Proof.
  unfold inRange. rewrite andb_true_iff, !N.leb_le. tauto.
Qed.

Lemma isNoteLetter_spec c :
  isNoteLetter c = true <-> (65 <= c <= 71) \/ (97 <= c <= 103).
Proof.
  unfold isNoteLetter. rewrite orb_true_iff, !inRange_spec. tauto.
Qed.

Lemma toUpperCase_letter c :
  isNoteLetter c = true -> 65 <= toUpperCase c <= 71.
Proof.
  rewrite isNoteLetter_spec. unfold toUpperCase.
  destruct (inRange 97 122 c) eqn:E.
  - apply inRange_spec in E. lia.
  - intros [H | H]; [lia |].
    assert (inRange 97 122 c = true) by (apply inRange_spec; lia). congruence.
Qed.

Lemma isLower_letter c :
  isNoteLetter c = true -> (c =? toLowerCase c) = inRange 97 103 c.
Proof.
  rewrite isNoteLetter_spec. unfold toLowerCase. intros H.
  destruct (inRange 65 90 c) eqn:E; destruct (inRange 97 103 c) eqn:F;
    try apply inRange_spec in E; try apply inRange_spec in F.
  - lia.
  - apply N.eqb_neq. lia.
  - apply N.eqb_refl.
  - assert (inRange 65 90 c = true) by (apply inRange_spec;
      destruct H as [H | H]; [lia |];
      assert (inRange 97 103 c = true) by (apply inRange_spec; lia); congruence).
    congruence.
Qed.

Lemma NOTE_TO_DEGREE_letter k :
  65 <= k <= 71 -> exists d, NOTE_TO_DEGREE k = Some d /\ (1 <= d <= 7)%nat.
Proof.
  intros H. unfold NOTE_TO_DEGREE.
  repeat match goal with
    | |- context [?a =? ?b] => destruct (N.eqb_spec a b)
    end; try (eexists; split; [reflexivity | lia]).
  lia.
Qed.

Example parse_demo :
  parseSequences (lit "c' D5;; x ;B,,") =
  [mkSequence [lit "C6"; lit "D5"] [1; 2]%nat; mkSequence [lit "B2"] [7%nat]].
Proof. vm_compute. reflexivity. Qed.

(** ** The tokenizer *)

Lemma takeWhile_forallb {A} (p : A -> bool) l : forallb p (takeWhile p l) = true.
Proof.
  induction l as [| x r IH]; simpl; [reflexivity |].
  destruct (p x) eqn:E; simpl; [now rewrite E |reflexivity].
Qed.

Lemma dropWhile_length {A} (p : A -> bool) l :
  (List.length (dropWhile p l) <= List.length l)%nat.
Proof.
  induction l as [| x r IH]; simpl; [lia |].
  destruct (p x); simpl; lia.
Qed.

Lemma matchAll_skip c rest :
  isNoteLetter c = false -> matchAll (c :: rest) = matchAll rest.
Proof. intros H. simpl. now rewrite H. Qed.

Lemma matchAll_explicit c d rest :
  isNoteLetter c = true -> isDigit d = true ->
  matchAll (c :: d :: rest) = [c; d] :: matchAll rest.
Proof. intros Hc Hd. simpl. now rewrite Hc, Hd. Qed.

(** The inner loop of [matchAll] takes the longest run of modifiers. *)
Lemma star_run c : forall r acc,
  (fix star (acc : jsstring) (r : jsstring) {struct r} : list jsstring :=
     match r with
     | m :: r' =>
         if isModifier m then star (acc ++ [m]) r'
         else (c :: acc) :: matchAll r
     | [] => [c :: acc]
     end) acc r =
  (c :: acc ++ takeWhile isModifier r) :: matchAll (dropWhile isModifier r).
Proof.
  induction r as [| m r' IH]; intros acc.
  - cbn -[matchAll]. now rewrite app_nil_r.
  - cbn -[matchAll]. destruct (isModifier m) eqn:Em.
    + rewrite IH. now rewrite <- app_assoc.
    + now rewrite app_nil_r.
Qed.

Lemma matchAll_cons c rest :
  matchAll (c :: rest) =
  if isNoteLetter c then
    match rest with
    | d :: rest' =>
        if isDigit d then [c; d] :: matchAll rest'
        else
          (fix star (acc : jsstring) (r : jsstring) {struct r} : list jsstring :=
             match r with
             | m :: r' =>
                 if isModifier m then star (acc ++ [m]) r'
                 else (c :: acc) :: matchAll r
             | [] => [c :: acc]
             end) [] rest
    | [] => [[c]]
    end
  else matchAll rest.
Proof. reflexivity. Qed.

Lemma matchAll_abc c rest :
  isNoteLetter c = true -> noDigitAhead rest = true ->
  matchAll (c :: rest) =
  (c :: takeWhile isModifier rest) :: matchAll (dropWhile isModifier rest).
Proof.
  intros Hc Hd. rewrite matchAll_cons, Hc. destruct rest as [| d rest'].
  - reflexivity.
  - simpl in Hd. apply negb_true_iff in Hd. rewrite Hd.
    rewrite star_run. cbn [takeWhile dropWhile].
    destruct (isModifier d); reflexivity.
Qed.

Lemma matchAll_shape_fuel n : forall s,
  (List.length s <= n)%nat -> Forall tokenShape (matchAll s).
Proof.
  induction n as [| n IH]; intros s Hlen.
  - destruct s; [constructor | simpl in Hlen; lia].
  - destruct s as [| c rest]; [constructor |].
    simpl in Hlen.
    destruct (isNoteLetter c) eqn:Hc.
    + destruct (noDigitAhead rest) eqn:Hd.
      * rewrite matchAll_abc by assumption. constructor.
        -- apply ShapeAbc; [assumption | apply takeWhile_forallb].
        -- apply IH. pose proof (dropWhile_length isModifier rest). lia.
      * destruct rest as [| d rest']; [discriminate |].
        simpl in Hd. apply negb_false_iff in Hd.
        rewrite matchAll_explicit by assumption. constructor.
        -- now apply ShapeExplicit.
        -- apply IH. simpl in Hlen. lia.
    + rewrite matchAll_skip by assumption. apply IH. lia.
Qed.

Lemma matchAll_shape s : Forall tokenShape (matchAll s).
Proof. apply (matchAll_shape_fuel (List.length s)). lia. Qed.

Lemma tokenizeNotes_shape input : Forall tokenShape (tokenizeNotes input).
Proof. apply matchAll_shape. Qed.

(** Characters that neither start nor extend a token cut the input in two
    independent parts. *)
Lemma matchAll_app_fuel n : forall pre c rest,
  (List.length pre <= n)%nat ->
  isNoteLetter c = false -> isDigit c = false -> isModifier c = false ->
  matchAll (pre ++ c :: rest) = matchAll pre ++ matchAll rest.
Proof.
  induction n as [| n IH]; intros pre c rest Hlen Hl Hd Hm.
  - destruct pre; [| simpl in Hlen; lia].
    rewrite app_nil_l, matchAll_skip by assumption. reflexivity.
  - destruct pre as [| p pre'].
    + rewrite app_nil_l, matchAll_skip by assumption. reflexivity.
    + simpl in Hlen. rewrite <- app_comm_cons.
      destruct (isNoteLetter p) eqn:Hp.
      * destruct pre' as [| q pre''].
        -- rewrite app_nil_l.
           rewrite (matchAll_abc p (c :: rest)) by (assumption || (simpl; now rewrite Hd)).
           rewrite (matchAll_abc p []) by (assumption || reflexivity).
           simpl takeWhile. simpl dropWhile. rewrite Hm.
           rewrite matchAll_skip by assumption. reflexivity.
        -- destruct (isDigit q) eqn:Hq.
           ++ rewrite <- app_comm_cons.
              rewrite !matchAll_explicit by assumption.
              rewrite (IH pre'' c rest) by (simpl in Hlen; lia || assumption).
              reflexivity.
           ++ rewrite (matchAll_abc p ((q :: pre'') ++ c :: rest))
                by (assumption || (simpl; now rewrite Hq)).
              rewrite (matchAll_abc p (q :: pre'')) by (assumption || (simpl; now rewrite Hq)).
              assert (Ht : takeWhile isModifier ((q :: pre'') ++ c :: rest)
                           = takeWhile isModifier (q :: pre'')
                        /\ dropWhile isModifier ((q :: pre'') ++ c :: rest)
                           = dropWhile isModifier (q :: pre'') ++ c :: rest).
              { generalize (q :: pre'') as l. induction l as [| x l IHl]; simpl.
                - now rewrite Hm.
                - destruct (isModifier x); [| now split].
                  destruct IHl as [-> ->]. now split. }
              destruct Ht as [-> ->].
              rewrite (IH (dropWhile isModifier (q :: pre'')) c rest); try assumption.
              ** reflexivity.
              ** pose proof (dropWhile_length isModifier (q :: pre'')). simpl in *. lia.
      * rewrite !matchAll_skip by assumption. apply IH; assumption || lia.
Qed.

Lemma matchAll_app pre c rest :
  isNoteLetter c = false -> isDigit c = false -> isModifier c = false ->
  matchAll (pre ++ c :: rest) = matchAll pre ++ matchAll rest.
Proof. apply (matchAll_app_fuel (List.length pre)). lia. Qed.

(** ** Normalization *)

Lemma modifier_not_digit c : isModifier c = true -> isDigit c = false.
Proof.
  intros H. unfold isModifier in H. apply orb_true_iff in H.
  destruct H as [H | H]; apply N.eqb_eq in H; subst; reflexivity.
Qed.

Lemma normalizeNote_explicit l d :
  isNoteLetter l = true -> isDigit d = true ->
  normalizeNote [l; d] = Some [toUpperCase l; d].
Proof. intros Hl Hd. unfold normalizeNote, explicitMatch. now rewrite Hl, Hd. Qed.

Lemma explicitMatch_abc l modifiers :
  forallb isModifier modifiers = true -> explicitMatch (l :: modifiers) = None.
Proof.
  intros H. destruct modifiers as [| d [| e r]]; try reflexivity.
  simpl in H. rewrite andb_true_r in H. simpl.
  rewrite (modifier_not_digit d H). now rewrite andb_false_r.
Qed.

Lemma normalizeNote_abc l modifiers :
  isNoteLetter l = true -> forallb isModifier modifiers = true ->
  normalizeNote (l :: modifiers) =
  Some [toUpperCase l; digitOf (Z.max 0 (Z.min 7 (rawOctave l modifiers)))].
Proof.
  intros Hl Hm. unfold normalizeNote. rewrite explicitMatch_abc by assumption.
  unfold abcMatch. rewrite Hl, Hm. reflexivity.
Qed.

Lemma fold_applyModifier modifiers : forall base,
  fold_left applyModifier modifiers base =
  (base + Z.of_nat (count_occ N.eq_dec modifiers 39%N)
        - Z.of_nat (count_occ N.eq_dec modifiers 44%N))%Z.
Proof.
  induction modifiers as [| m r IH]; intros base; simpl.
  - lia.
  - rewrite IH. unfold applyModifier.
    destruct (N.eq_dec m 39) as [E39 | N39]; destruct (N.eq_dec m 44) as [E44 | N44];
      subst; try discriminate; simpl.
    + lia.
    + lia.
    + apply N.eqb_neq in N39, N44. rewrite N39, N44. lia.
Qed.

Lemma digitOf_octave z : (0 <= z <= 7)%Z -> 48 <= digitOf z <= 55.
Proof. unfold digitOf. lia. Qed.

Lemma normalizeNote_shape tok :
  tokenShape tok -> exists n, normalizeNote tok = Some n /\ canonical n.
Proof.
  intros [l d Hl Hd | l modifiers Hl Hm].
  - rewrite normalizeNote_explicit by assumption. eexists. split; [reflexivity |].
    exists (toUpperCase l), d. auto using toUpperCase_letter.
  - rewrite normalizeNote_abc by assumption. eexists. split; [reflexivity |].
    eexists _, _. split; [reflexivity |]. split; [now apply toUpperCase_letter |].
    apply inRange_spec.
    assert (48 <= digitOf (Z.max 0 (Z.min 7 (rawOctave l modifiers))) <= 55)
      by (apply digitOf_octave; lia).
    lia.
Qed.

Lemma degreeOf_canonical n : canonical n -> (1 <= degreeOf n <= 7)%nat.
Proof.
  intros (l & d & -> & Hl & _). simpl.
  destruct (NOTE_TO_DEGREE_letter l Hl) as (k & -> & Hk). exact Hk.
Qed.

Lemma abc_octave_facts l modifiers :
  isNoteLetter l = true -> forallb isModifier modifiers = true ->
  exists o, normalizeNote (l :: modifiers) = Some [toUpperCase l; o]
            /\ 65 <= toUpperCase l <= 71 /\ 48 <= o <= 55.
Proof.
  intros Hl Hm. eexists. split; [now apply normalizeNote_abc |].
  split; [now apply toUpperCase_letter | apply digitOf_octave; lia].
Qed.

(** ** Segments *)

Lemma collect_spec tokens : forall ns ds,
  collect tokens ns ds =
  match normalizeAll tokens with
  | Some ns' => mkSequence (ns ++ ns') (ds ++ List.map degreeOf ns')
  | None => mkSequence [] []
  end.
Proof.
  induction tokens as [| tok rest IH]; intros ns ds; simpl.
  - now rewrite !app_nil_r.
  - destruct (normalizeNote tok) as [n |]; [| reflexivity].
    rewrite IH. destruct (normalizeAll rest) as [ns' |]; [| reflexivity].
    simpl. now rewrite <- !app_assoc.
Qed.

Lemma normalizeAll_Some tokens : forall ns,
  normalizeAll tokens = Some ns <->
  Forall2 (fun tok n => normalizeNote tok = Some n) tokens ns.
Proof.
  induction tokens as [| tok rest IH]; intros ns; simpl.
  - split.
    + intros [= <-]. constructor.
    + intros H. inversion H. reflexivity.
  - destruct (normalizeNote tok) as [n |] eqn:En.
    + destruct (normalizeAll rest) as [ns' |] eqn:Er.
      * split.
        -- intros [= <-]. constructor; [assumption | now apply IH].
        -- intros H. inversion H as [| ? n' ? ns'' Hn Hr]; subst.
           rewrite En in Hn. injection Hn as <-.
           apply IH in Hr. now injection Hr as <-.
      * split; [discriminate |].
        intros H. inversion H as [| ? n' ? ns'' Hn Hr]; subst.
        apply IH in Hr. discriminate.
    + split; [discriminate |].
      intros H. inversion H as [| ? n' ? ns'' Hn Hr]; subst.
      rewrite En in Hn. discriminate.
Qed.

Lemma normalizeAll_None tokens :
  (exists tok, In tok tokens /\ normalizeNote tok = None) -> normalizeAll tokens = None.
Proof.
  induction tokens as [| t rest IH]; intros (tok & Hin & Hn); simpl in *.
  - contradiction.
  - destruct Hin as [-> | Hin].
    + now rewrite Hn.
    + rewrite IH by (exists tok; auto). now destruct (normalizeNote t).
Qed.

Lemma normalizeAll_In tokens : forall ns tok,
  normalizeAll tokens = Some ns -> In tok tokens ->
  exists n, normalizeNote tok = Some n /\ In n ns.
Proof.
  induction tokens as [| t rest IH]; intros ns tok H Hin; simpl in *.
  - contradiction.
  - destruct (normalizeNote t) as [n |] eqn:En; [| discriminate].
    destruct (normalizeAll rest) as [ns' |] eqn:Er; [| discriminate].
    injection H as <-. destruct Hin as [-> | Hin].
    + exists n. simpl. auto.
    + destruct (IH ns' tok eq_refl Hin) as (m & Hm & Hi). exists m. simpl. auto.
Qed.

Lemma normalizeAll_shapes tokens :
  Forall tokenShape tokens ->
  exists ns, normalizeAll tokens = Some ns /\ Forall canonical ns.
Proof.
  induction 1 as [| tok rest Hs _ IH]; simpl.
  - exists []. split; [reflexivity | constructor].
  - destruct (normalizeNote_shape tok Hs) as (n & -> & Hc).
    destruct IH as (ns & -> & Hns). exists (n :: ns). split; [reflexivity |].
    now constructor.
Qed.

Lemma sequenceOfTokens_spec tokens :
  sequenceOfTokens tokens =
  match normalizeAll tokens with
  | Some ns => mkSequence ns (List.map degreeOf ns)
  | None => mkSequence [] []
  end.
Proof. unfold sequenceOfTokens. now rewrite collect_spec. Qed.

Lemma parseSequences_contributions raw :
  parseSequences raw =
  flat_map (fun seg => contribution (tokenizeNotes seg)) (segments raw).
Proof.
  unfold parseSequences. induction (segments raw) as [| seg segs IH]; simpl.
  - reflexivity.
  - rewrite <- IH. unfold contribution. simpl.
    destruct (keep (sequenceOfTokens (tokenizeNotes seg))); reflexivity.
Qed.

Lemma contribution_In tokens s :
  In s (contribution tokens) ->
  exists ns, normalizeAll tokens = Some ns /\ s = mkSequence ns (List.map degreeOf ns)
             /\ ns <> [] /\ Forall (fun d => (0 < d)%nat) (List.map degreeOf ns).
Proof.
  unfold contribution. simpl. destruct (keep (sequenceOfTokens tokens)) eqn:K;
    [| contradiction].
  intros [<- | []]. rewrite sequenceOfTokens_spec in *.
  destruct (normalizeAll tokens) as [ns |]; [| discriminate].
  exists ns. split; [reflexivity |]. split; [reflexivity |].
  unfold keep in K. simpl in K. apply andb_true_iff in K. destruct K as [K1 K2].
  split.
  - destruct ns; [discriminate | discriminate].
  - apply Forall_forall. intros d Hd.
    rewrite forallb_forall in K2. apply Nat.ltb_lt. now apply K2.
Qed.

(** ** Properties of the parser *)

(** C1: parsing the raw input "CFGc;C,EGc" returns exactly two sequences, in
    input order: notes C4 F4 G4 C5 with degrees 1 4 5 1, then notes
    C3 E4 G4 C5 with degrees 1 3 5 1. *)
Theorem parse_end_to_end :
  parseSequences (lit "CFGc;C,EGc") =
  [ mkSequence [lit "C4"; lit "F4"; lit "G4"; lit "C5"] [1; 4; 5; 1]%nat;
    mkSequence [lit "C3"; lit "E4"; lit "G4"; lit "C5"] [1; 3; 5; 1]%nat ].
Proof. vm_compute. reflexivity. Qed.

(** C3: an ABC-style token, a letter A-G in either case followed by any run
    of the modifiers [,] and ['], always normalizes, to the uppercase letter
    and an octave that starts at 5 for a lowercase letter and at 4 for an
    uppercase one, goes down by one at each [,] and up by one at each [']
    from left to right, and is then clamped to the range 0..7. *)
Theorem abc_token_octave (l : char) (modifiers : jsstring) :
  isNoteLetter l = true ->
  forallb isModifier modifiers = true ->
  let base := if inRange 97 103 l then 5%Z else 4%Z in
  let ups := Z.of_nat (count_occ N.eq_dec modifiers 39%N) in
  let downs := Z.of_nat (count_occ N.eq_dec modifiers 44%N) in
  let octave := Z.max 0 (Z.min 7 (base + ups - downs)) in
  normalizeNote (l :: modifiers) = Some [toUpperCase l; digitOf octave]
  /\ fold_left applyModifier modifiers base = (base + ups - downs)%Z
  /\ 65 <= toUpperCase l <= 71
  /\ (0 <= octave <= 7)%Z
  /\ 48 <= digitOf octave <= 55.
Proof.
  intros Hl Hm base ups downs octave.
  assert (Hraw : rawOctave l modifiers = (base + ups - downs)%Z).
  { unfold rawOctave. rewrite isLower_letter by assumption.
    apply fold_applyModifier. }
  split; [| split; [| split; [| split]]].
  - rewrite normalizeNote_abc by assumption. now rewrite Hraw.
  - apply fold_applyModifier.
  - now apply toUpperCase_letter.
  - subst octave. lia.
  - apply digitOf_octave. subst octave. lia.
Qed.

Lemma abc_token_octave_witness :
  normalizeNote (lit "C,,,,,,,,") = Some (lit "C0").
Proof.
  exact (proj1 (abc_token_octave 67 (lit ",,,,,,,,") eq_refl eq_refl)).
Defined.




(** C5, as stated, fails: the explicit token C9 is parsed to the note C9,
    whose octave is outside 0..7. *)
Lemma explicit_octave_not_clamped :
  ~ (forall raw s n,
        In s (parseSequences raw) -> In n (notes s) -> octaveClamped n = true).
Proof.
  intros H.
  specialize (H (lit "C9") (mkSequence [lit "C9"] [1%nat]) (lit "C9")).
  discriminate H; simpl; auto.
Qed.

(** C5, amended: every note of every parsed sequence is the normalized form
    of a token of a segment of the input, and is an uppercase letter A-G
    followed by one digit; the digit is between 0 and 7 when the token is in
    ABC style, and is the token's own digit when the token is a letter and
    a digit. *)
Theorem parsed_octave_domain (raw : jsstring) (s : Sequence) (n : jsstring) :
  In s (parseSequences raw) ->
  In n (notes s) ->
  exists seg tok l d,
    In seg (segments raw) /\ In tok (tokenizeNotes seg)
    /\ normalizeNote tok = Some n
    /\ n = [l; d] /\ 65 <= l <= 71 /\ 48 <= d <= 57
    /\ (explicitMatch tok = None -> 48 <= d <= 55)
    /\ (forall l0 d0, explicitMatch tok = Some (l0, d0) -> d = d0).
Proof.
  intros Hs Hn. rewrite parseSequences_contributions in Hs.
  apply in_flat_map in Hs. destruct Hs as (seg & Hseg & Hs).
  apply contribution_In in Hs. destruct Hs as (ns & Hall & -> & _). simpl in Hn.
  apply normalizeAll_Some in Hall.
  assert (Htok : exists tok, In tok (tokenizeNotes seg) /\ normalizeNote tok = Some n).
  { clear Hseg. induction Hall as [| t m ts ms Htm _ IH]; simpl in *.
    - contradiction.
    - destruct Hn as [-> | Hn]; [exists t; auto |].
      destruct (IH Hn) as (tok & Hi & Ht). exists tok. auto. }
  destruct Htok as (tok & Hin & Htok).
  pose proof (tokenizeNotes_shape seg) as Hshape.
  rewrite Forall_forall in Hshape. specialize (Hshape tok Hin).
  exists seg, tok.
  destruct Hshape as [l d Hl Hd | l modifiers Hl Hm].
  - rewrite normalizeNote_explicit in Htok by assumption. injection Htok as <-.
    exists (toUpperCase l), d.
    split; [assumption |]. split; [assumption |].
    split; [now apply normalizeNote_explicit |]. split; [reflexivity |].
    split; [now apply toUpperCase_letter |].
    split; [apply inRange_spec in Hd; exact Hd |].
    unfold explicitMatch. rewrite Hl, Hd. split; [discriminate |].
    intros l0 d0 [= _ <-]. reflexivity.
  - destruct (abc_octave_facts l modifiers Hl Hm) as (o & Hnorm & Hu & Hd).
    rewrite Hnorm in Htok. injection Htok as <-.
    exists (toUpperCase l), o.
    split; [assumption |]. split; [assumption |].
    split; [assumption |]. split; [reflexivity |].
    split; [assumption |]. split; [lia |].
    rewrite explicitMatch_abc by assumption. split; [intros _; exact Hd |].
    discriminate.
Qed.

Lemma parsed_octave_domain_witness :
  exists seg tok l d,
    In seg (segments (lit "C9;c''''")) /\ In tok (tokenizeNotes seg)
    /\ normalizeNote tok = Some (lit "C7")
    /\ lit "C7" = [l; d] /\ 65 <= l <= 71 /\ 48 <= d <= 57
    /\ (explicitMatch tok = None -> 48 <= d <= 55)
    /\ (forall l0 d0, explicitMatch tok = Some (l0, d0) -> d = d0).
Proof.
  apply (parsed_octave_domain (lit "C9;c''''") (mkSequence [lit "C7"] [1%nat])).
  - vm_compute. auto.
  - simpl. auto.
Defined.

(** ** Random selection *)

Lemma floorIndex_lt (rnd : Q) (len : nat) :
  (0 <= rnd)%Q -> (rnd < 1)%Q -> (0 < len)%nat -> (floorIndex rnd len < len)%nat.
Proof.
  intros H0 H1 Hlen. unfold floorIndex.
  set (n := inject_Z (Z.of_nat len)).
  assert (Hn : (0 < n)%Q).
  { unfold n. change 0%Q with (inject_Z 0). rewrite <- Zlt_Qlt. lia. }
  assert (Hlo : (0 <= Qfloor (rnd * n))%Z).
  { change 0%Z with (Qfloor 0). apply Qfloor_resp_le.
    apply Qmult_le_0_compat; [assumption | now apply Qlt_le_weak]. }
  assert (Hhi : (Qfloor (rnd * n) < Z.of_nat len)%Z).
  { rewrite Zlt_Qlt. fold n.
    apply Qle_lt_trans with (rnd * n)%Q; [apply Qfloor_le |].
    rewrite <- (Qmult_1_l n) at 2.
    apply Qmult_lt_compat_r; assumption. }
  lia.
Qed.

Lemma pickRandom_single {T} (same : T -> T -> bool) x exclude rnd :
  pickRandom same [x] exclude rnd = Some x.
Proof. reflexivity. Qed.

(** Whatever is picked comes from the array and is not the excluded item. *)
Lemma pickRandom_sound {T} (same : T -> T -> bool) arr exclude rnd x :
  pickRandom same arr exclude rnd = Some x ->
  In x arr
  /\ ((1 < List.length arr)%nat -> forall e, exclude = Some e -> same x e = false).
Proof.
  unfold pickRandom. destruct (Nat.leb_spec (List.length arr) 1) as [Hle | Hgt].
  - intros H. split; [eapply nth_error_In; eassumption | lia].
  - intros H. apply nth_error_In in H. apply filter_In in H. destruct H as [Hin Hp].
    split; [assumption |]. intros _ e ->. now apply negb_true_iff.
Qed.

(** With nothing to exclude, something is always picked. *)
Lemma pickRandom_null {T} (same : T -> T -> bool) arr rnd :
  arr <> [] -> (0 <= rnd)%Q -> (rnd < 1)%Q ->
  exists x, pickRandom same arr None rnd = Some x /\ In x arr.
Proof.
  intros Hne H0 H1. unfold pickRandom.
  destruct (Nat.leb_spec (List.length arr) 1) as [Hle | Hgt].
  - destruct arr as [| x r]; [congruence |]. exists x. simpl. auto.
  - assert (Hf : filter (fun _ : T => true) arr = arr).
    { clear. induction arr as [| y r IH]; simpl; [reflexivity | now rewrite IH]. }
    rewrite Hf.
    destruct (nth_error arr (floorIndex rnd (List.length arr))) as [x |] eqn:E.
    + exists x. split; [reflexivity | eapply nth_error_In; eassumption].
    + apply nth_error_None in E.
      pose proof (floorIndex_lt rnd (List.length arr) H0 H1). lia.
Qed.

(** ** Grading *)

Lemma everyFrom_nth (degrees : list nat) : forall ua i,
  everyFrom (fun d j => match nth_error degrees j with
                        | Some t => (d =? t)%nat
                        | None => false
                        end) ua i = true <->
  (forall k d, nth_error ua k = Some d -> nth_error degrees (i + k) = Some d).
Proof.
  induction ua as [| x r IH]; intros i; simpl.
  - split; [| reflexivity]. intros _ k d H. destruct k; discriminate.
  - rewrite andb_true_iff, IH. split.
    + intros [Hx Hr] k d Hk. destruct k as [| k]; simpl in Hk.
      * injection Hk as <-. rewrite Nat.add_0_r.
        destruct (nth_error degrees i) as [t |]; [| discriminate].
        apply Nat.eqb_eq in Hx. now subst.
      * rewrite <- Nat.add_succ_comm. now apply Hr.
    + intros H. split.
      * specialize (H 0%nat x eq_refl). rewrite Nat.add_0_r in H. rewrite H.
        apply Nat.eqb_refl.
      * intros k d Hk. rewrite Nat.add_succ_comm. now apply (H (S k)).
Qed.

Lemma grade_spec ua degs :
  grade ua degs = true <->
  List.length ua = List.length degs
  /\ (forall i, nth_error ua i = nth_error degs i).
Proof.
  unfold grade. rewrite andb_true_iff, Nat.eqb_eq, everyFrom_nth. split.
  - intros [Hlen H]. split; [assumption |]. intros i.
    destruct (nth_error ua i) as [d |] eqn:E.
    + symmetry. now apply (H i d).
    + symmetry. apply nth_error_None. apply nth_error_None in E. lia.
  - intros [Hlen H]. split; [assumption |]. intros k d Hk. simpl.
    now rewrite <- H.
Qed.

Lemma grade_eq ua degs : grade ua degs = true <-> ua = degs.
Proof.
  rewrite grade_spec. split.
  - intros [_ H]. now apply nth_error_ext.
  - intros ->. auto.
Qed.

(** ** Renders *)

Lemma render_hooks a : hooks (render a) = hooks a.
Proof. unfold render. now destruct (_ =? _)%nat. Qed.

Lemma render_timers a : timers (render a) = timers a.
Proof. unfold render. now destruct (_ =? _)%nat. Qed.

Lemma render_played a : played (render a) = played a.
Proof. unfold render. now destruct (_ =? _)%nat. Qed.

Lemma render_now a : now (render a) = now a.
Proof. unfold render. now destruct (_ =? _)%nat. Qed.

Lemma render_fresh a : memoFresh (render a).
Proof.
  unfold memoFresh, render.
  destruct (Nat.eqb_spec (arrAddr (sequences (hooks a)))
                         (arrAddr (cl_sequences (startRoundMemo a)))); simpl; auto.
Qed.

Lemma render_id a : memoFresh a -> render a = a.
Proof.
  unfold memoFresh, render. intros ->. now rewrite Nat.eqb_refl.
Qed.

Lemma render_idem a : render (render a) = render a.
Proof. apply render_id, render_fresh. Qed.

(** ** Submitting *)

Lemma submit_empty a : userAnswer (hooks a) = [] -> submit a = a.
Proof.
  intros H. unfold submit. rewrite H. now destruct (current (hooks a)).
Qed.

Lemma submit_graded a cur :
  current (hooks a) = Some cur -> userAnswer (hooks a) <> [] ->
  submit a =
  render (setGameState result
            (setIsCorrect (Some (grade (userAnswer (hooks a)) (degrees (obj cur)))) a)).
Proof.
  intros Hc Hu. unfold submit. rewrite Hc.
  destruct (userAnswer (hooks a)) as [| d r]; [congruence | reflexivity].
Qed.

(** ** Reachable states *)

Lemma staleClosure_render a : staleClosure a -> render a = a.
Proof.
  intros H. apply render_id. unfold memoFresh. now rewrite H.
Qed.

Ltac stale_step :=
  match goal with
  | H : staleClosure ?a |- staleClosure (render ?b) =>
      let F := fresh in
      assert (F : staleClosure b) by (unfold staleClosure in *; simpl; exact H);
      rewrite (staleClosure_render b F); exact F
  end.

Lemma staleClosure_mount raw : staleClosure (mount raw).
Proof. reflexivity. Qed.

Lemma staleClosure_startRound rnd a : staleClosure a -> staleClosure (startRound rnd a).
Proof.
  intros H. unfold startRound.
  destruct (_ =? 0)%nat; [assumption |].
  destruct (pickRandom _ _ _ _); stale_step.
Qed.

Lemma staleClosure_replay a : staleClosure a -> staleClosure (replay a).
Proof.
  intros H. unfold replay. destruct (current (hooks a)); [| assumption].
  destruct (isPlaying (hooks a)); [assumption | stale_step].
Qed.

Lemma staleClosure_tryAgain a : staleClosure a -> staleClosure (tryAgain a).
Proof.
  intros H. unfold tryAgain. destruct (current (hooks a)); [| assumption].
  destruct (isPlaying (hooks a)); [assumption | stale_step].
Qed.

Lemma staleClosure_submit a : staleClosure a -> staleClosure (submit a).
Proof.
  intros H. unfold submit. destruct (current (hooks a)); [| assumption].
  destruct (_ =? 0)%nat; [assumption | stale_step].
Qed.

Lemma staleClosure_addDegree d a : staleClosure a -> staleClosure (addDegree d a).
Proof.
  intros H. unfold addDegree. destruct (gameState (hooks a)); try assumption.
  stale_step.
Qed.

Lemma staleClosure_removeLast a : staleClosure a -> staleClosure (removeLast a).
Proof.
  intros H. unfold removeLast. destruct (gameState (hooks a)); try assumption.
  stale_step.
Qed.

Lemma staleClosure_revealAnswer a : staleClosure a -> staleClosure (revealAnswer a).
Proof. intros H. unfold revealAnswer. stale_step. Qed.

Lemma staleClosure_keyHandler rnd key a :
  staleClosure a -> staleClosure (keyHandler rnd key a).
Proof.
  intros H. unfold keyHandler.
  destruct (gameState (hooks a)).
  - destruct (_ && _); auto using staleClosure_startRound.
  - assumption.
  - destruct key; auto using staleClosure_submit, staleClosure_removeLast,
      staleClosure_replay.
    destruct (_ && _); auto using staleClosure_addDegree.
  - destruct (_ && _); [now apply staleClosure_startRound |].
    destruct (_ && _); [now apply staleClosure_tryAgain |].
    destruct key; auto using staleClosure_replay.
    destruct (_ && _); auto using staleClosure_revealAnswer.
Qed.

Lemma staleClosure_fire t a : staleClosure a -> staleClosure (fire t a).
Proof.
  intros H. unfold fire, resume. destruct (kont t); stale_step.
Qed.

Lemma staleClosure_runDue fuel t : forall a,
  staleClosure a -> staleClosure (runDue fuel t a).
Proof.
  induction fuel as [| fuel IH]; intros a H; simpl; [assumption |].
  destruct (earliest (timers a)) as [tm |]; [| assumption].
  destruct (due tm <=? t); [| assumption].
  apply IH. now apply staleClosure_fire.
Qed.

Lemma staleClosure_reachable raw a : reachable raw a -> staleClosure a.
Proof.
  induction 1 as [| a _ IH | rnd key a _ IH H0 H1 | t a _ IH].
  - apply staleClosure_mount.
  - unfold audioLoaded. stale_step.
  - now apply staleClosure_keyHandler.
  - unfold advanceTo.
    pose proof (staleClosure_runDue (List.length (timers a)) t a IH) as H.
    unfold staleClosure in *. simpl. exact H.
Qed.

(** In every state the component reaches, [startRound] draws from the
    whole collection: the sequence of the round before is not excluded. *)
Lemma startRound_draws_from_all raw a rnd :
  reachable raw a ->
  items (sequences (hooks a)) <> [] ->
  current (hooks (startRound rnd a))
  = pickRandom sameRef (items (sequences (hooks a))) None rnd.
Proof.
  intros Hr Hne. pose proof (staleClosure_reachable raw a Hr) as H.
  unfold startRound. rewrite H. simpl.
  destruct (items (sequences (hooks a))) as [| s r] eqn:E; [congruence |].
  simpl (List.length _ =? 0)%nat. cbv iota.
  destruct (pickRandom sameRef (s :: r) None rnd); rewrite render_hooks; reflexivity.
Qed.

(** The guard of [replay] and of [tryAgain]: nothing happens while the flag
    [isPlaying] is set. *)
Lemma replay_guard a : isPlaying (hooks a) = true -> replay a = a.
Proof. intros H. unfold replay. rewrite H. now destruct (current (hooks a)). Qed.

Lemma tryAgain_guard a : isPlaying (hooks a) = true -> tryAgain a = a.
Proof. intros H. unfold tryAgain. rewrite H. now destruct (current (hooks a)). Qed.

(** [startRound] either does nothing, on an empty collection, or chooses a
    member of the collection. *)
Lemma startRound_chooses rnd a :
  staleClosure a -> (0 <= rnd)%Q -> (rnd < 1)%Q ->
  (items (sequences (hooks a)) = [] /\ startRound rnd a = a)
  \/ (items (sequences (hooks a)) <> []
      /\ exists s, current (hooks (startRound rnd a)) = Some s
                   /\ In s (items (sequences (hooks a)))).
Proof.
  intros H H0 H1. unfold startRound. rewrite H. simpl.
  destruct (items (sequences (hooks a))) as [| x r] eqn:E.
  - left. auto.
  - right. split; [discriminate |].
    simpl (List.length _ =? 0)%nat. cbv iota.
    destruct (pickRandom_null sameRef (x :: r) rnd) as (s & Hs & Hin);
      [discriminate | assumption | assumption |].
    rewrite Hs. rewrite render_hooks. simpl. eauto.
Qed.

Lemma replay_current a : current (hooks (replay a)) = current (hooks a).
Proof.
  unfold replay. destruct (current (hooks a)) eqn:E; [| now rewrite E].
  destruct (isPlaying (hooks a)); [now rewrite E |]. now rewrite render_hooks.
Qed.

Lemma tryAgain_current a : current (hooks (tryAgain a)) = current (hooks a).
Proof.
  unfold tryAgain. destruct (current (hooks a)) eqn:E; [| now rewrite E].
  destruct (isPlaying (hooks a)); [now rewrite E |]. now rewrite render_hooks.
Qed.

Lemma submit_current a : current (hooks (submit a)) = current (hooks a).
Proof.
  unfold submit. destruct (current (hooks a)) eqn:E; [| now rewrite E].
  destruct (_ =? 0)%nat; [now rewrite E |]. now rewrite render_hooks.
Qed.

Lemma addDegree_current d a : current (hooks (addDegree d a)) = current (hooks a).
Proof.
  unfold addDegree. destruct (gameState (hooks a)); try reflexivity.
  now rewrite render_hooks.
Qed.

Lemma removeLast_current a : current (hooks (removeLast a)) = current (hooks a).
Proof.
  unfold removeLast. destruct (gameState (hooks a)); try reflexivity.
  now rewrite render_hooks.
Qed.

Lemma revealAnswer_current a : current (hooks (revealAnswer a)) = current (hooks a).
Proof. unfold revealAnswer. now rewrite render_hooks. Qed.

Lemma fire_current t a : current (hooks (fire t a)) = current (hooks a).
Proof. unfold fire, resume. destruct (kont t); now rewrite render_hooks. Qed.

Lemma runDue_current fuel t : forall a,
  current (hooks (runDue fuel t a)) = current (hooks a).
Proof.
  induction fuel as [| fuel IH]; intros a; simpl; [reflexivity |].
  destruct (earliest (timers a)) as [tm |]; [| reflexivity].
  destruct (due tm <=? t); [| reflexivity].
  now rewrite IH, fire_current.
Qed.

Lemma keyHandler_keeps_chosen rnd key a :
  staleClosure a -> (0 <= rnd)%Q -> (rnd < 1)%Q ->
  current (hooks a) <> None -> current (hooks (keyHandler rnd key a)) <> None.
Proof.
  intros H H0 H1 Hc.
  assert (Hstart : current (hooks (startRound rnd a)) <> None).
  { destruct (startRound_chooses rnd a H H0 H1) as [[_ ->] | (_ & s & -> & _)];
      [assumption | discriminate]. }
  unfold keyHandler. destruct (gameState (hooks a)).
  - now destruct (_ && _).
  - assumption.
  - destruct key; rewrite ?submit_current, ?removeLast_current, ?replay_current;
      try assumption.
    destruct (_ && _); rewrite ?addDegree_current; assumption.
  - destruct (_ && _); [assumption |].
    destruct (_ && _); [now rewrite tryAgain_current |].
    destruct key; rewrite ?replay_current; try assumption.
    destruct (_ && _); rewrite ?revealAnswer_current; assumption.
Qed.

Lemma roundChosen_reachable raw a : reachable raw a -> roundChosen a.
Proof.
  induction 1 as [| a Hr IH | rnd key a Hr IH H0 H1 | t a Hr IH].
  - intros _. simpl. auto.
  - unfold audioLoaded, roundChosen. rewrite render_hooks, render_timers. exact IH.
  - pose proof (staleClosure_reachable raw a Hr) as Hs.
    destruct (current (hooks a)) as [c |] eqn:Hc.
    + intros Hn. exfalso.
      apply (keyHandler_keeps_chosen rnd key a Hs H0 H1); [congruence | assumption].
    + destruct (IH Hc) as (Hg & Hu & Ht).
      unfold keyHandler. rewrite Hg.
      destruct (_ && _); [| exact IH].
      destruct (startRound_chooses rnd a Hs H0 H1) as [[_ ->] | (_ & s & Hs' & _)];
        [exact IH |].
      intros Hn. congruence.
  - intros Hn. unfold advanceTo in Hn. simpl in Hn. rewrite runDue_current in Hn.
    destruct (IH Hn) as (Hg & Hu & Ht).
    unfold advanceTo. rewrite Ht. simpl. auto.
Qed.

(** In a reachable state a non-empty answer belongs to a chosen sequence. *)
Lemma answer_has_target raw a :
  reachable raw a -> userAnswer (hooks a) <> [] ->
  exists cur, current (hooks a) = Some cur.
Proof.
  intros Hr Hu. pose proof (roundChosen_reachable raw a Hr) as H.
  destruct (current (hooks a)) as [cur |] eqn:Hc; [eauto |].
  destruct (H Hc) as (_ & He & _). congruence.
Qed.

(** ** Properties of the tokenizer output *)

(** C10: every token of the tokenizer has the letter-and-digit shape or the
    letter-and-modifiers shape, so it is normalized, to an uppercase letter
    A-G and a digit, with a degree between 1 and 7; the loop over the
    tokens of a segment therefore never takes its early return and yields
    all the normalized notes.  A character that is not a letter A-G is
    passed over where a token could start, and a character that is neither
    such a letter, a digit, a modifier nor white space separates the tokens
    before it from those after it. *)
Theorem tokenizer_output_normalizes :
  (forall input,
      Forall (fun tok =>
                (explicitMatch tok <> None \/ abcMatch tok <> None)
                /\ exists n, normalizeNote tok = Some n /\ canonical n
                             /\ (1 <= degreeOf n <= 7)%nat)
             (tokenizeNotes input))
  /\ (forall input,
      exists ns,
        Forall2 (fun tok n => normalizeNote tok = Some n) (tokenizeNotes input) ns
        /\ sequenceOfTokens (tokenizeNotes input) = mkSequence ns (List.map degreeOf ns)
        /\ Forall (fun d => (1 <= d <= 7)%nat) (List.map degreeOf ns))
  /\ (forall c rest,
      isNoteLetter c = false -> tokenizeNotes (c :: rest) = tokenizeNotes rest)
  /\ (forall pre c rest,
      isNoteLetter c = false -> isDigit c = false -> isModifier c = false ->
      isWhiteSpace c = false ->
      tokenizeNotes (pre ++ c :: rest) = tokenizeNotes pre ++ tokenizeNotes rest).
Proof.
  split; [| split; [| split]].
  - intros input. pose proof (tokenizeNotes_shape input) as H.
    rewrite Forall_forall in *. intros tok Hin. specialize (H tok Hin). split.
    + destruct H as [l d Hl Hd | l modifiers Hl Hm].
      * left. unfold explicitMatch. rewrite Hl, Hd. discriminate.
      * right. unfold abcMatch. rewrite Hl, Hm. discriminate.
    + destruct (normalizeNote_shape tok H) as (n & Hn & Hc).
      exists n. auto using degreeOf_canonical.
  - intros input.
    destruct (normalizeAll_shapes _ (tokenizeNotes_shape input)) as (ns & Hall & Hc).
    exists ns. split; [now apply normalizeAll_Some |]. split.
    + now rewrite sequenceOfTokens_spec, Hall.
    + apply Forall_map. eapply Forall_impl; [| exact Hc].
      intros n. apply degreeOf_canonical.
  - intros c rest Hc. unfold tokenizeNotes. simpl.
    destruct (isWhiteSpace c); simpl; [reflexivity | now apply matchAll_skip].
  - intros pre c rest Hl Hd Hm Hw. unfold tokenizeNotes.
    rewrite filter_app. simpl. rewrite Hw. simpl. now apply matchAll_app.
Qed.

Lemma tokenizer_output_normalizes_witness :
  tokenizeNotes (lit "5Cc") = tokenizeNotes (lit "Cc")
  /\ tokenizeNotes (lit "C,xD5") = tokenizeNotes (lit "C,") ++ tokenizeNotes (lit "D5").
Proof.
  destruct tokenizer_output_normalizes as (_ & _ & Hskip & Hcut). split.
  - apply (Hskip 53 (lit "Cc")). reflexivity.
  - apply (Hcut (lit "C,") 120 (lit "D5")); reflexivity.
Defined.

(** ** Properties of the round *)

(** C2: [submit] does nothing when the answer is empty; with a chosen
    sequence and a non-empty answer it sets the grading outcome and the
    state [result] and leaves everything else as it was, and in every state
    the component reaches a non-empty answer comes with a chosen sequence.
    The outcome is correct exactly when the answer has the length of the
    sequence's degrees and agrees with them at every index.  Against the
    degrees 1 4 5 1 the answer 1 4 5 1 is correct, 1 4 5 and 1 4 5 2 are
    not. *)
Theorem submit_grades :
  (forall a, userAnswer (hooks a) = [] -> submit a = a)
  /\ (forall a cur,
      current (hooks a) = Some cur -> userAnswer (hooks a) <> [] ->
      let correct := grade (userAnswer (hooks a)) (degrees (obj cur)) in
      hooks (submit a) =
        mkHooks (sequences (hooks a)) (current (hooks a)) (userAnswer (hooks a))
                result (Some correct)
                (showAnswer (hooks a)) (isPlaying (hooks a)) (isLoading (hooks a))
      /\ timers (submit a) = timers a
      /\ played (submit a) = played a
      /\ now (submit a) = now a)
  /\ (forall raw a,
      reachable raw a -> userAnswer (hooks a) <> [] ->
      exists cur, current (hooks a) = Some cur)
  /\ (forall answer target,
      grade answer target = true <->
      List.length answer = List.length target
      /\ (forall i, nth_error answer i = nth_error target i))
  /\ grade [1; 4; 5; 1]%nat [1; 4; 5; 1]%nat = true
  /\ grade [1; 4; 5]%nat [1; 4; 5; 1]%nat = false
  /\ grade [1; 4; 5; 2]%nat [1; 4; 5; 1]%nat = false.
Proof.
  split; [exact submit_empty |].
  split; [| split; [exact answer_has_target |
                    split; [exact grade_spec | repeat split; reflexivity]]].
  intros a cur Hc Hu correct.
  rewrite (submit_graded a cur Hc Hu).
  rewrite render_hooks, render_timers, render_played, render_now. simpl.
  repeat split.
Qed.

Lemma submit_grades_witness :
  submit initial = initial
  /\ gameState (hooks (submit answered145)) = result
  /\ isCorrect (hooks (submit answered145)) = Some false
  /\ isCorrect (hooks (submit (keyHandler 0 (KeyDigit 1) answered145))) = Some true.
Proof.
  destruct submit_grades as (Hempty & Hgrade & _).
  split; [apply Hempty; reflexivity |].
  destruct (Hgrade answered145 (mkRef 2 (mkSequence
              [lit "C4"; lit "F4"; lit "G4"; lit "C5"] [1; 4; 5; 1]%nat)))
    as (Hh & _); [reflexivity | discriminate |].
  rewrite Hh. split; [reflexivity |]. split; reflexivity.
Defined.

(** C9: a second [submit] right after the first changes nothing: neither
    the grading outcome, nor the state, nor anything else. *)
Theorem submit_twice (a : App) : submit (submit a) = submit a.
Proof.
  destruct (current (hooks a)) as [cur |] eqn:Hc.
  - destruct (List.length (userAnswer (hooks a)) =? 0)%nat eqn:Hu.
    + assert (Hs : submit a = a) by (unfold submit; now rewrite Hc, Hu).
      now rewrite !Hs.
    + assert (Hs : submit a =
                   render (setGameState result
                     (setIsCorrect
                        (Some (grade (userAnswer (hooks a)) (degrees (obj cur)))) a)))
        by (unfold submit; now rewrite Hc, Hu).
      rewrite Hs. unfold submit. rewrite render_hooks. simpl.
      rewrite Hc, Hu. clear Hs Hc Hu.
      destruct a as [h m ts n p]. destruct h. unfold render. simpl.
      destruct (arrAddr sequences0 =? arrAddr (cl_sequences m))%nat eqn:E;
        simpl; rewrite ?E, ?Nat.eqb_refl; reflexivity.
  - assert (Hs : submit a = a) by (unfold submit; now rewrite Hc).
    now rewrite !Hs.
Qed.

(** C6 fails on the code: on the collection "C;D", with [Math.random()]
    returning 0 in both rounds, the round after the first plays the first
    sequence again, although the collection has two members; [pickRandom]
    called with the sequence just played would have picked the other
    one. *)
Theorem start_round_repeats_sequence :
  let first := mkRef 2 (mkSequence [lit "C4"] [1%nat]) in
  let second := mkRef 3 (mkSequence [lit "D4"] [2%nat]) in
  items (sequences (hooks firstRoundDone)) = [first; second]
  /\ current (hooks firstRoundDone) = Some first
  /\ gameState (hooks firstRoundDone) = result
  /\ isCorrect (hooks firstRoundDone) = Some true
  /\ current (hooks (keyHandler 0 KeyEnter firstRoundDone)) = Some first
  /\ gameState (hooks (keyHandler 0 KeyEnter firstRoundDone)) = playing
  /\ pickRandom sameRef [first; second] (Some first) 0 = Some second.
Proof. vm_compute. repeat split. Qed.

(** C7 fails on the code: at 6000 ms the replay requested at 5000 ms is
    still in flight, yet the flag [isPlaying] has been cleared by the round
    started in between, and a replay request starts a second playback. *)
Theorem replay_accepted_in_flight :
  let a := replayOutlivesRound in
  gameState (hooks a) = answering
  /\ now a = 6000
  /\ timers a = [mkTimer 1 9200 AfterReplay]
  /\ inFlight a = true
  /\ isPlaying (hooks a) = false
  /\ timers (keyHandler 0 KeyR a) = [mkTimer 1 9200 AfterReplay; mkTimer 3 6600 AfterReplay]
  /\ keyHandler 0 KeyR a = replay a
  /\ played (replay a) = played a ++ [[lit "C4"]]
  /\ isPlaying (hooks (keyHandler 0 KeyR a)) = true.
Proof. vm_compute. repeat split. Qed.

(** The delays of the playbacks of fewer than sixty notes: none is longer
    than 600 ms a note, and these are one millisecond shorter. *)
Lemma delays_below_sixty_notes :
  forallb (fun n => totalDurationMs n <=? 600 * N.of_nat n) (seq 0 60) = true
  /\ filter (fun n => negb (totalDurationMs n =? 600 * N.of_nat n)) (seq 0 60)
     = [3; 6; 9; 12; 18; 23; 24; 31; 36; 41; 46; 48; 51; 53; 57]%nat.
Proof. vm_compute. split; reflexivity. Qed.

(** C8 fails on the code: for three notes the delay handed to [setTimeout],
    [3 * (0.5 + 0.1) * 1000] in double precision, is a number below 1800, so
    the timer of the playback is due 1799 ms after the request and the
    playback of a three-note sequence requested at time 0 has resolved at
    1799 ms, before the 3 * (500 + 100) ms of the claim; for one, four and
    seven notes the delay is the claim's. *)
Theorem playback_resolves_early :
  PrimFloat.ltb (Delay.timeout 3) (Delay.lengthOf 1800) = true
  /\ totalDurationMs 3 = 1799
  /\ totalDurationMs 3 < 3 * (500 + 100)
  /\ now threeNotesStarted = 0
  /\ gameState (hooks threeNotesStarted) = playing
  /\ played threeNotesStarted = [[lit "C4"; lit "D4"; lit "E4"]]
  /\ timers threeNotesStarted = [mkTimer 0 1799 AfterStartRound]
  /\ gameState (hooks (advanceTo 1799 threeNotesStarted)) = answering
  /\ inFlight (advanceTo 1799 threeNotesStarted) = false
  /\ totalDurationMs 1 = 600 /\ totalDurationMs 4 = 2400 /\ totalDurationMs 7 = 4200.
Proof. vm_compute. repeat split. Qed.

(** ** More about the parser *)

Lemma split_nonempty sep s : split sep s <> [].
Proof.
  destruct s as [| c r]; simpl; [discriminate |].
  destruct (c =? sep); [discriminate |]. destruct (split sep r); discriminate.
Qed.

Lemma split_app sep a b :
  split sep (a ++ sep :: b) = split sep a ++ split sep b.
Proof.
  induction a as [| c a IH]; simpl.
  - now rewrite N.eqb_refl.
  - destruct (c =? sep); [now rewrite IH |].
    rewrite IH. pose proof (split_nonempty sep a) as Hne.
    destruct (split sep a); [congruence | reflexivity].
Qed.

Lemma split_no_sep sep s :
  forallb (fun c => negb (c =? sep)) s = true -> split sep s = [s].
Proof.
  induction s as [| c r IH]; simpl; [reflexivity |].
  intros H. apply andb_true_iff in H. destruct H as [Hc Hr].
  apply negb_true_iff in Hc. rewrite Hc, (IH Hr). reflexivity.
Qed.

Lemma split_Forall (P : char -> Prop) sep s :
  Forall P s -> Forall (Forall P) (split sep s).
Proof.
  induction 1 as [| c r Hc Hr IH]; simpl.
  - repeat constructor.
  - destruct (c =? sep); [constructor; [constructor | assumption] |].
    destruct (split sep r) as [| piece pieces]; [repeat constructor; assumption |].
    inversion IH; subst. constructor; [constructor |]; assumption.
Qed.

Lemma split_strip s :
  split 59 (stripWhiteSpace s) = List.map stripWhiteSpace (split 59 s).
Proof.
  unfold stripWhiteSpace. induction s as [| c r IH]; simpl; [reflexivity |].
  destruct (N.eqb_spec c 59) as [-> | Hc].
  - simpl. now rewrite IH.
  - destruct (isWhiteSpace c) eqn:Hw; simpl.
    + rewrite IH. pose proof (split_nonempty 59 r) as Hne.
      destruct (split 59 r); [congruence |]. simpl. now rewrite Hw.
    + apply N.eqb_neq in Hc. rewrite Hc, IH.
      pose proof (split_nonempty 59 r) as Hne.
      destruct (split 59 r); [congruence |]. simpl. now rewrite Hw.
Qed.

Lemma strip_dropWhile s :
  stripWhiteSpace (dropWhile isWhiteSpace s) = stripWhiteSpace s.
Proof.
  unfold stripWhiteSpace. induction s as [| c r IH]; simpl; [reflexivity |].
  destruct (isWhiteSpace c) eqn:Hw; simpl; [exact IH | now rewrite Hw].
Qed.

Lemma strip_trim s : stripWhiteSpace (trim s) = stripWhiteSpace s.
Proof.
  unfold trim.
  assert (Hrev : forall l, stripWhiteSpace (rev l) = rev (stripWhiteSpace l))
    by (intros l; apply filter_rev).
  rewrite Hrev, strip_dropWhile, Hrev, rev_involutive. apply strip_dropWhile.
Qed.

Lemma strip_idem s : stripWhiteSpace (stripWhiteSpace s) = stripWhiteSpace s.
Proof.
  unfold stripWhiteSpace. apply forallb_filter_id, forallb_filter.
Qed.

Lemma tokenizeNotes_strip s : tokenizeNotes (stripWhiteSpace s) = tokenizeNotes s.
Proof.
  unfold tokenizeNotes. fold (stripWhiteSpace (stripWhiteSpace s)).
  now rewrite strip_idem.
Qed.

Lemma tokenizeNotes_trim s : tokenizeNotes (trim s) = tokenizeNotes s.
Proof.
  unfold tokenizeNotes. fold (stripWhiteSpace (trim s)) (stripWhiteSpace s).
  now rewrite strip_trim.
Qed.

(** Trimming the pieces and dropping the empty ones changes nothing: an
    empty piece has no token and so contributes nothing. *)
Lemma parseSequences_pieces raw :
  parseSequences raw = flat_map pieceContribution (split 59 raw).
Proof.
  rewrite parseSequences_contributions. unfold segments, pieceContribution.
  induction (split 59 raw) as [| piece pieces IH]; simpl; [reflexivity |].
  rewrite <- IH. destruct (trim piece) as [| c r] eqn:E; simpl.
  - rewrite <- (tokenizeNotes_trim piece), E. reflexivity.
  - rewrite <- E, tokenizeNotes_trim. reflexivity.
Qed.

(** X1: a parameter that holds no letter A-G, in either case, yields no
    sequence; in particular the empty parameter does. *)
Theorem parse_without_letters (raw : jsstring) :
  forallb (fun c => negb (isNoteLetter c)) raw = true -> parseSequences raw = [].
Proof.
  intros H. rewrite parseSequences_pieces.
  assert (Hp : Forall (Forall (fun c => isNoteLetter c = false)) (split 59 raw)).
  { apply split_Forall. apply Forall_forall. intros c Hc.
    rewrite forallb_forall in H. apply negb_true_iff. now apply H. }
  induction Hp as [| piece pieces Hpiece _ IH]; simpl; [reflexivity |].
  rewrite IH, app_nil_r. unfold pieceContribution.
  assert (Ht : tokenizeNotes piece = []).
  { unfold tokenizeNotes.
    assert (Hf : Forall (fun c => isNoteLetter c = false)
                        (filter (fun c => negb (isWhiteSpace c)) piece)).
    { apply Forall_forall. intros c Hc. apply filter_In in Hc.
      rewrite Forall_forall in Hpiece. now apply Hpiece. }
    induction Hf as [| c r Hc _ IHr]; [reflexivity |].
    now rewrite matchAll_skip. }
  now rewrite Ht.
Qed.

Lemma parse_without_letters_witness :
  parseSequences [] = [] /\ parseSequences (lit " ; 12 ,' ;xyz;") = [].
Proof.
  split; apply parse_without_letters; reflexivity.
Defined.

(** The notes of a parsed sequence are canonical and its degrees are theirs. *)
Lemma parsed_notes_canonical raw s :
  In s (parseSequences raw) ->
  notes s <> [] /\ Forall canonical (notes s)
  /\ degrees s = List.map degreeOf (notes s).
Proof.
  intros Hs. rewrite parseSequences_contributions in Hs.
  apply in_flat_map in Hs. destruct Hs as (seg & _ & Hs).
  apply contribution_In in Hs. destruct Hs as (ns & Hall & -> & Hne & _). simpl.
  destruct (normalizeAll_shapes _ (tokenizeNotes_shape seg)) as (ns' & Hall' & Hc).
  rewrite Hall in Hall'. injection Hall' as <-. auto.
Qed.

(** X2: every parsed sequence is well formed: it has at least one note, as
    many degrees as notes, each note is an uppercase letter A-G and a digit,
    and each degree is the degree of the note at the same place and lies
    between 1 and 7. *)
Theorem parsed_sequence_invariant (raw : jsstring) (s : Sequence) :
  In s (parseSequences raw) ->
  notes s <> []
  /\ List.length (degrees s) = List.length (notes s)
  /\ Forall canonical (notes s)
  /\ degrees s = List.map degreeOf (notes s)
  /\ Forall (fun d => (1 <= d <= 7)%nat) (degrees s).
Proof.
  intros Hs. destruct (parsed_notes_canonical raw s Hs) as (Hne & Hc & Hd).
  split; [assumption |]. rewrite Hd.
  split; [apply length_map |]. split; [assumption |]. split; [reflexivity |].
  apply Forall_map. eapply Forall_impl; [| exact Hc]. intros n. apply degreeOf_canonical.
Qed.

Lemma parsed_sequence_invariant_witness :
  let s := mkSequence [lit "C3"; lit "E4"] [1; 3]%nat in
  notes s <> []
  /\ List.length (degrees s) = List.length (notes s)
  /\ Forall canonical (notes s)
  /\ degrees s = List.map degreeOf (notes s)
  /\ Forall (fun d => (1 <= d <= 7)%nat) (degrees s).
Proof.
  apply (parsed_sequence_invariant (lit "x;C,E")). vm_compute. auto.
Defined.

(** X3: parsing distributes over the semicolon: the sequences of two
    parameters joined by a semicolon are those of the first followed by
    those of the second. *)
Theorem parse_semicolon (a b : jsstring) :
  parseSequences (a ++ 59 :: b) = parseSequences a ++ parseSequences b.
Proof.
  rewrite !parseSequences_pieces, split_app. apply flat_map_app.
Qed.

(** X4: white space is ignored wherever it stands: a parameter and the same
    parameter without its white space give the same sequences. *)
Theorem parse_ignores_white_space (raw : jsstring) :
  parseSequences (stripWhiteSpace raw) = parseSequences raw.
Proof.
  rewrite !parseSequences_pieces, split_strip.
  induction (split 59 raw) as [| piece pieces IH]; simpl; [reflexivity |].
  rewrite IH. unfold pieceContribution at 1 3. now rewrite tokenizeNotes_strip.
Qed.

Lemma modifier_not_letter c : isModifier c = true -> isNoteLetter c = false.
Proof.
  intros H. unfold isModifier in H. apply orb_true_iff in H.
  destruct H as [H | H]; apply N.eqb_eq in H; subst; reflexivity.
Qed.

Lemma digit_not_letter c : isDigit c = true -> isNoteLetter c = false.
Proof.
  intros H. apply inRange_spec in H.
  destruct (isNoteLetter c) eqn:E; [| reflexivity].
  apply isNoteLetter_spec in E. lia.
Qed.

Lemma letter_not_white_space c : isNoteLetter c = true -> isWhiteSpace c = false.
Proof.
  intros H. apply isNoteLetter_spec in H. unfold isWhiteSpace, inRange.
  repeat (apply orb_false_iff; split);
    try (apply N.eqb_neq; lia);
    apply andb_false_iff; destruct H; (left; apply N.leb_gt; lia) || (right; apply N.leb_gt; lia).
Qed.

Lemma letter_not_semicolon c : isNoteLetter c = true -> (c =? 59) = false.
Proof. intros H. apply isNoteLetter_spec in H. apply N.eqb_neq. lia. Qed.

Lemma digit_not_white_space c : isDigit c = true -> isWhiteSpace c = false.
Proof.
  intros H. apply inRange_spec in H. unfold isWhiteSpace, inRange.
  repeat (apply orb_false_iff; split);
    try (apply N.eqb_neq; lia);
    apply andb_false_iff; (left; apply N.leb_gt; lia) || (right; apply N.leb_gt; lia).
Qed.

Lemma digit_not_semicolon c : isDigit c = true -> (c =? 59) = false.
Proof. intros H. apply inRange_spec in H. apply N.eqb_neq. lia. Qed.

Lemma letters_dropWhile r :
  filter isNoteLetter (dropWhile isModifier r) = filter isNoteLetter r.
Proof.
  induction r as [| m r IH]; simpl; [reflexivity |].
  destruct (isModifier m) eqn:Em; [| reflexivity].
  now rewrite (modifier_not_letter m Em).
Qed.

Lemma letters_strip s :
  filter isNoteLetter (stripWhiteSpace s) = filter isNoteLetter s.
Proof.
  unfold stripWhiteSpace. induction s as [| c r IH]; simpl; [reflexivity |].
  destruct (isNoteLetter c) eqn:Hc.
  - rewrite (letter_not_white_space c Hc). simpl. rewrite Hc. now rewrite IH.
  - destruct (isWhiteSpace c); simpl; [exact IH | now rewrite Hc].
Qed.

(** The first characters of the matches are the letters of the string. *)
Lemma matchAll_heads_fuel n : forall s,
  (List.length s <= n)%nat -> List.map (hd 0) (matchAll s) = filter isNoteLetter s.
Proof.
  induction n as [| n IH]; intros s Hlen.
  - destruct s; [reflexivity | simpl in Hlen; lia].
  - destruct s as [| c rest]; [reflexivity |]. simpl in Hlen.
    destruct (isNoteLetter c) eqn:Hc.
    + assert (Hf : filter isNoteLetter (c :: rest) = c :: filter isNoteLetter rest)
        by (simpl; now rewrite Hc).
      rewrite Hf.
      destruct (noDigitAhead rest) eqn:Hd.
      * rewrite matchAll_abc by assumption. simpl. f_equal.
        rewrite IH; [apply letters_dropWhile |].
        pose proof (dropWhile_length isModifier rest). lia.
      * destruct rest as [| d rest']; [discriminate |].
        simpl in Hd. apply negb_false_iff in Hd.
        rewrite matchAll_explicit by assumption. simpl. f_equal.
        rewrite IH by (simpl in Hlen; lia).
        now rewrite (digit_not_letter d Hd).
    + rewrite matchAll_skip by assumption. rewrite IH by lia.
      simpl. now rewrite Hc.
Qed.

(** X5: the tokenizer yields exactly one token for each letter A-G, in
    either case, of its input: the first characters of the tokens are the
    letters of the input, in the order of the input; every token starts
    with such a letter and holds no other letter; so no letter is lost or
    merged into another token, nothing else starts a token, and there are
    as many tokens as letters. *)
Theorem one_token_per_letter (input : jsstring) :
  List.map (hd 0) (tokenizeNotes input) = filter isNoteLetter input
  /\ Forall (fun tok => exists l rest,
                tok = l :: rest /\ isNoteLetter l = true
                /\ Forall (fun c => isNoteLetter c = false) rest)
            (tokenizeNotes input)
  /\ List.length (tokenizeNotes input) = countLetters input.
Proof.
  assert (Hheads : List.map (hd 0) (tokenizeNotes input) = filter isNoteLetter input).
  { unfold tokenizeNotes. fold (stripWhiteSpace input).
    rewrite (matchAll_heads_fuel (List.length (stripWhiteSpace input))) by lia.
    apply letters_strip. }
  split; [exact Hheads |]. split.
  - eapply Forall_impl; [| apply tokenizeNotes_shape].
    intros tok [l d Hl Hd | l modifiers Hl Hm].
    + exists l, [d]. split; [reflexivity |]. split; [assumption |].
      constructor; [now apply digit_not_letter | constructor].
    + exists l, modifiers. split; [reflexivity |]. split; [assumption |].
      apply Forall_forall. intros c Hc. rewrite forallb_forall in Hm.
      apply modifier_not_letter. now apply Hm.
  - unfold countLetters. rewrite <- Hheads. symmetry. apply length_map.
Qed.

Lemma normalizeNote_Some_shape tok n : normalizeNote tok = Some n -> tokenShape tok.
Proof.
  unfold normalizeNote. destruct (explicitMatch tok) as [[l d] |] eqn:E.
  - intros _. unfold explicitMatch in E.
    destruct tok as [| l0 [| d0 [| x r]]]; try discriminate.
    destruct (isNoteLetter l0) eqn:Hl; destruct (isDigit d0) eqn:Hd; try discriminate.
    now constructor.
  - destruct (abcMatch tok) as [[l modifiers] |] eqn:A; [| discriminate].
    intros _. unfold abcMatch in A. destruct tok as [| l0 r]; [discriminate |].
    destruct (isNoteLetter l0) eqn:Hl; destruct (forallb isModifier r) eqn:Hm;
      try discriminate.
    now apply ShapeAbc.
Qed.

Lemma toUpperCase_upper l : 65 <= l <= 71 -> toUpperCase l = l.
Proof.
  intros H. unfold toUpperCase. destruct (inRange 97 122 l) eqn:E; [| reflexivity].
  apply inRange_spec in E. lia.
Qed.

Lemma normalizeNote_canonical n : canonical n -> normalizeNote n = Some n.
Proof.
  intros (l & d & -> & Hl & Hd).
  rewrite normalizeNote_explicit; [now rewrite toUpperCase_upper | | assumption].
  apply isNoteLetter_spec. lia.
Qed.

(** X6: normalization is idempotent: the canonical name a token is
    normalized to is a token that is normalized to itself. *)
Theorem normalize_idempotent (tok n : jsstring) :
  normalizeNote tok = Some n -> normalizeNote n = Some n.
Proof.
  intros H. pose proof (normalizeNote_Some_shape tok n H) as Hs.
  destruct (normalizeNote_shape tok Hs) as (n' & Hn & Hc).
  rewrite H in Hn. injection Hn as <-. now apply normalizeNote_canonical.
Qed.

Lemma normalize_idempotent_witness :
  normalizeNote (lit "g''") = Some (lit "G7")
  /\ normalizeNote (lit "G7") = Some (lit "G7").
Proof.
  split; [reflexivity |]. apply (normalize_idempotent (lit "g''")). reflexivity.
Defined.

(** X7: the degree of a note depends on the letter of its token alone, not
    on its case, its modifiers or its digit: it is the entry of the degree
    table for the uppercase letter. *)
Theorem degree_by_letter (l : char) (rest n : jsstring) :
  normalizeNote (l :: rest) = Some n ->
  NOTE_TO_DEGREE (toUpperCase l) = Some (degreeOf n).
Proof.
  intros H. pose proof (normalizeNote_Some_shape _ _ H) as Hs.
  assert (Hl : isNoteLetter l = true) by (inversion Hs; assumption).
  assert (Hn : exists d, n = [toUpperCase l; d]).
  { inversion Hs as [l0 d Hl0 Hd | l0 modifiers Hl0 Hm]; subst.
    - rewrite normalizeNote_explicit in H by assumption. injection H as <-. eauto.
    - rewrite normalizeNote_abc in H by assumption. injection H as <-. eauto. }
  destruct Hn as (d & ->). simpl.
  destruct (NOTE_TO_DEGREE_letter _ (toUpperCase_letter l Hl)) as (k & -> & _).
  reflexivity.
Qed.

Lemma degree_by_letter_witness :
  NOTE_TO_DEGREE (toUpperCase 97) = Some (degreeOf (lit "A2"))
  /\ NOTE_TO_DEGREE (toUpperCase 65) = Some (degreeOf (lit "A9")).
Proof.
  split.
  - apply (degree_by_letter 97 (lit ",,,")). reflexivity.
  - apply (degree_by_letter 65 (lit "9")). reflexivity.
Defined.

Lemma matchAll_canonical ns :
  Forall canonical ns -> matchAll (List.concat ns) = ns.
Proof.
  induction 1 as [| n ns (l & d & -> & Hl & Hd) _ IH]; [reflexivity |].
  change (List.concat ([l; d] :: ns)) with (l :: d :: List.concat ns).
  rewrite matchAll_explicit; [now rewrite IH | | assumption].
  apply isNoteLetter_spec. lia.
Qed.

Lemma normalizeAll_canonical ns :
  Forall canonical ns -> normalizeAll ns = Some ns.
Proof.
  induction 1 as [| n ns Hn _ IH]; simpl; [reflexivity |].
  now rewrite (normalizeNote_canonical n Hn), IH.
Qed.

Lemma canonical_chars ns :
  Forall canonical ns ->
  Forall (fun c => isWhiteSpace c = false /\ (c =? 59) = false) (List.concat ns).
Proof.
  induction 1 as [| n ns (l & d & -> & Hl & Hd) _ IH]; simpl; [constructor |].
  assert (Hl' : isNoteLetter l = true) by (apply isNoteLetter_spec; lia).
  repeat constructor; auto using letter_not_white_space, letter_not_semicolon,
    digit_not_white_space, digit_not_semicolon.
Qed.

(** X8: writing the notes of a parsed sequence one after the other gives a
    parameter that is parsed back to that very sequence. *)
Theorem parse_round_trip (raw : jsstring) (s : Sequence) :
  In s (parseSequences raw) -> parseSequences (List.concat (notes s)) = [s].
Proof.
  intros Hs. destruct (parsed_notes_canonical raw s Hs) as (Hne & Hc & Hd).
  destruct s as [ns ds]. simpl in *. subst ds.
  assert (Hr : Forall (fun d => (1 <= d <= 7)%nat) (List.map degreeOf ns)).
  { apply Forall_map. eapply Forall_impl; [| exact Hc].
    intros n. apply degreeOf_canonical. }
  pose proof (canonical_chars ns Hc) as Hchars.
  rewrite parseSequences_pieces.
  rewrite split_no_sep.
  2:{ apply forallb_forall. intros c Hin. rewrite Forall_forall in Hchars.
      destruct (Hchars c Hin) as [_ H59]. now rewrite H59. }
  simpl. rewrite app_nil_r. unfold pieceContribution, tokenizeNotes.
  rewrite forallb_filter_id.
  2:{ apply forallb_forall. intros c Hin. rewrite Forall_forall in Hchars.
      destruct (Hchars c Hin) as [Hw _]. now rewrite Hw. }
  rewrite (matchAll_canonical ns Hc). unfold contribution.
  rewrite sequenceOfTokens_spec, (normalizeAll_canonical ns Hc). simpl.
  assert (Hk : keep (mkSequence ns (List.map degreeOf ns)) = true).
  { unfold keep. simpl. apply andb_true_iff. split.
    - destruct ns; [congruence | reflexivity].
    - apply forallb_forall. intros d Hin. rewrite Forall_forall in Hr.
      apply Nat.ltb_lt. specialize (Hr d Hin). lia. }
  now rewrite Hk.
Qed.

Lemma parse_round_trip_witness :
  parseSequences (lit "C3E4G4C5") =
  [mkSequence [lit "C3"; lit "E4"; lit "G4"; lit "C5"] [1; 3; 5; 1]%nat].
Proof.
  apply (parse_round_trip (lit "CFGc;C,EGc")
           (mkSequence [lit "C3"; lit "E4"; lit "G4"; lit "C5"] [1; 3; 5; 1]%nat)).
  vm_compute. auto.
Defined.

(** ** Steps of the component *)

Lemma earliest_In ts tm : earliest ts = Some tm -> In tm ts.
Proof.
  revert tm. induction ts as [| t r IH]; intros tm; simpl; [discriminate |].
  destruct (earliest r) as [u |].
  - destruct (due t <=? due u); intros [= <-]; auto.
  - intros [= <-]. auto.
Qed.

Lemma reaches_runDue raw fuel t : forall a,
  reaches raw a -> reaches raw (runDue fuel t a).
Proof.
  induction fuel as [| fuel IH]; intros a Ha; simpl; [assumption |].
  destruct (earliest (timers a)) as [tm |] eqn:E; [| assumption].
  destruct (due tm <=? t); [| assumption].
  apply IH. eapply reaches_step; [eassumption |].
  apply step_fire. now apply earliest_In.
Qed.

Lemma reaches_key raw rnd key a :
  (0 <= rnd)%Q -> (rnd < 1)%Q -> reaches raw a -> reaches raw (keyHandler rnd key a).
Proof.
  intros H0 H1 Ha.
  assert (Hstep : forall b, step a b -> reaches raw b)
    by (intros b; now apply reaches_step).
  unfold keyHandler. destruct (gameState (hooks a)) eqn:Hg.
  - destruct (negb (isLoading (hooks a)) && isEnterOrSpace key) eqn:E; [| assumption].
    apply andb_true_iff in E. destruct E as [El _]. apply negb_true_iff in El.
    apply Hstep, step_start; auto.
  - assumption.
  - destruct key; try assumption.
    + now apply Hstep, step_submit.
    + now apply Hstep, step_submit.
    + destruct ((1 <=? d)%nat && (d <=? 7)%nat) eqn:E; [| assumption].
      apply andb_true_iff in E. destruct E as [E1 E2].
      apply Nat.leb_le in E1, E2. apply Hstep, step_addDegree. lia.
    + apply Hstep, step_removeLast.
    + apply Hstep, step_replay. auto.
  - destruct (isEnterOrSpace key
              && (truthyCorrect (isCorrect (hooks a)) || showAnswer (hooks a))) eqn:E1.
    + apply andb_true_iff in E1. destruct E1 as [_ E1].
      apply Hstep, step_start; auto.
    + destruct (isEnterOrSpace key && negb (truthyCorrect (isCorrect (hooks a)))
                && negb (showAnswer (hooks a))) eqn:E2.
      * apply andb_true_iff in E2. destruct E2 as [E2 E3].
        apply andb_true_iff in E2. destruct E2 as [_ E2].
        apply negb_true_iff in E2, E3. now apply Hstep, step_tryAgain.
      * destruct key; try assumption.
        -- apply Hstep, step_replay. auto.
        -- destruct (negb (truthyCorrect (isCorrect (hooks a)))
                     && negb (showAnswer (hooks a))) eqn:E3; [| assumption].
           apply andb_true_iff in E3. destruct E3 as [E3 E4].
           apply negb_true_iff in E3, E4. now apply Hstep, step_revealAnswer.
Qed.

(** Every state the component reaches is reached by steps. *)
Lemma reachable_reaches raw a : reachable raw a -> reaches raw a.
Proof.
  induction 1 as [| a _ IH | rnd key a _ IH H0 H1 | t a _ IH].
  - constructor.
  - eapply reaches_step; [eassumption | constructor].
  - now apply reaches_key.
  - change (advanceTo t a) with (tick t (runDue (List.length (timers a)) t a)).
    eapply reaches_step; [apply reaches_runDue; eassumption | constructor].
Qed.

(** The handlers, once the closure of [startRound] is known to be the stale
    one of the mounted component: what each of them returns. *)

Ltac unrender H :=
  match goal with
  | |- context [render ?b] =>
      let F := fresh in
      assert (F : staleClosure b) by (unfold staleClosure in *; simpl; exact H);
      rewrite (staleClosure_render b F); clear F
  end.

Lemma startRound_cases rnd a :
  staleClosure a -> (0 <= rnd)%Q -> (rnd < 1)%Q ->
  (items (sequences (hooks a)) = [] /\ startRound rnd a = a)
  \/ exists s,
       In s (items (sequences (hooks a)))
       /\ startRound rnd a =
          mkApp (mkHooks (sequences (hooks a)) (Some s) [] playing None false true
                         (isLoading (hooks a)))
                (startRoundMemo a)
                (timers a ++ [mkTimer (List.length (played a))
                                (now a + totalDurationMs (List.length (notes (obj s))))
                                AfterStartRound])
                (now a) (played a ++ [notes (obj s)]).
Proof.
  intros H H0 H1. unfold startRound. rewrite H. simpl.
  destruct (items (sequences (hooks a))) as [| x r] eqn:E; [left; auto | right].
  simpl (List.length _ =? 0)%nat. cbv iota.
  destruct (pickRandom_null sameRef (x :: r) rnd) as (s & Hs & Hin);
    [discriminate | assumption | assumption |].
  rewrite Hs. exists s. split; [assumption |]. unrender H.
  unfold playSequence. simpl. now rewrite H.
Qed.

Lemma replay_cases a :
  staleClosure a ->
  replay a = a
  \/ exists cur,
       current (hooks a) = Some cur /\ isPlaying (hooks a) = false
       /\ replay a =
          mkApp (mkHooks (sequences (hooks a)) (current (hooks a)) (userAnswer (hooks a))
                         (gameState (hooks a)) (isCorrect (hooks a))
                         (showAnswer (hooks a)) true (isLoading (hooks a)))
                (startRoundMemo a)
                (timers a ++ [mkTimer (List.length (played a))
                                (now a + totalDurationMs (List.length (notes (obj cur))))
                                AfterReplay])
                (now a) (played a ++ [notes (obj cur)]).
Proof.
  intros H. unfold replay. destruct (current (hooks a)) as [cur |] eqn:Hc; [| now left].
  destruct (isPlaying (hooks a)) eqn:Hp; [now left | right].
  exists cur. split; [reflexivity |]. split; [reflexivity |].
  unrender H. unfold playSequence, setIsPlaying, withHooks. simpl. now rewrite Hc.
Qed.

Lemma tryAgain_cases a :
  staleClosure a ->
  tryAgain a = a
  \/ exists cur,
       current (hooks a) = Some cur /\ isPlaying (hooks a) = false
       /\ tryAgain a =
          mkApp (mkHooks (sequences (hooks a)) (current (hooks a)) [] playing None
                         (showAnswer (hooks a)) true (isLoading (hooks a)))
                (startRoundMemo a)
                (timers a ++ [mkTimer (List.length (played a))
                                (now a + totalDurationMs (List.length (notes (obj cur))))
                                AfterTryAgain])
                (now a) (played a ++ [notes (obj cur)]).
Proof.
  intros H. unfold tryAgain. destruct (current (hooks a)) as [cur |] eqn:Hc; [| now left].
  destruct (isPlaying (hooks a)) eqn:Hp; [now left | right].
  exists cur. split; [reflexivity |]. split; [reflexivity |].
  unrender H. unfold playSequence, setIsPlaying, setGameState, setIsCorrect,
    setUserAnswer, withHooks. simpl. now rewrite Hc.
Qed.

Lemma submit_cases a :
  staleClosure a ->
  submit a = a
  \/ exists cur,
       current (hooks a) = Some cur /\ userAnswer (hooks a) <> []
       /\ submit a =
          mkApp (mkHooks (sequences (hooks a)) (current (hooks a)) (userAnswer (hooks a))
                         result
                         (Some (grade (userAnswer (hooks a)) (degrees (obj cur))))
                         (showAnswer (hooks a)) (isPlaying (hooks a))
                         (isLoading (hooks a)))
                (startRoundMemo a) (timers a) (now a) (played a).
Proof.
  intros H. unfold submit. destruct (current (hooks a)) as [cur |] eqn:Hc; [| now left].
  destruct (userAnswer (hooks a)) as [| d r] eqn:Hu; [now left | right].
  exists cur. split; [reflexivity |]. split; [discriminate |].
  simpl (List.length _ =? 0)%nat. cbv iota.
  unrender H. unfold setGameState, setIsCorrect, withHooks. simpl.
  now rewrite Hc, Hu.
Qed.

Lemma addDegree_cases d a :
  staleClosure a ->
  addDegree d a = a
  \/ (gameState (hooks a) = answering
      /\ addDegree d a =
         mkApp (mkHooks (sequences (hooks a)) (current (hooks a))
                        (userAnswer (hooks a) ++ [d]) (gameState (hooks a))
                        (isCorrect (hooks a)) (showAnswer (hooks a))
                        (isPlaying (hooks a)) (isLoading (hooks a)))
               (startRoundMemo a) (timers a) (now a) (played a)).
Proof.
  intros H. unfold addDegree. destruct (gameState (hooks a)) eqn:Hg; try now left.
  right. split; [reflexivity |]. unrender H.
  unfold setUserAnswer, withHooks. simpl. now rewrite Hg.
Qed.

Lemma removeLast_cases a :
  staleClosure a ->
  removeLast a = a
  \/ (gameState (hooks a) = answering
      /\ removeLast a =
         mkApp (mkHooks (sequences (hooks a)) (current (hooks a))
                        (removelast (userAnswer (hooks a))) (gameState (hooks a))
                        (isCorrect (hooks a)) (showAnswer (hooks a))
                        (isPlaying (hooks a)) (isLoading (hooks a)))
               (startRoundMemo a) (timers a) (now a) (played a)).
Proof.
  intros H. unfold removeLast. destruct (gameState (hooks a)) eqn:Hg; try now left.
  right. split; [reflexivity |]. unrender H.
  unfold setUserAnswer, withHooks. simpl. now rewrite Hg.
Qed.

Lemma revealAnswer_eq a :
  staleClosure a ->
  revealAnswer a =
  mkApp (mkHooks (sequences (hooks a)) (current (hooks a)) (userAnswer (hooks a))
                 (gameState (hooks a)) (isCorrect (hooks a)) true
                 (isPlaying (hooks a)) (isLoading (hooks a)))
        (startRoundMemo a) (timers a) (now a) (played a).
Proof. intros H. unfold revealAnswer. now unrender H. Qed.

Lemma audioLoaded_eq a :
  staleClosure a ->
  audioLoaded a =
  mkApp (mkHooks (sequences (hooks a)) (current (hooks a)) (userAnswer (hooks a))
                 (gameState (hooks a)) (isCorrect (hooks a)) (showAnswer (hooks a))
                 (isPlaying (hooks a)) false)
        (startRoundMemo a) (timers a) (now a) (played a).
Proof. intros H. unfold audioLoaded. now unrender H. Qed.

Lemma fire_eq tm a :
  staleClosure a ->
  fire tm a =
  mkApp (mkHooks (sequences (hooks a)) (current (hooks a)) (userAnswer (hooks a))
                 (if endsRound (kont tm) then answering else gameState (hooks a))
                 (isCorrect (hooks a)) (showAnswer (hooks a)) false
                 (isLoading (hooks a)))
        (startRoundMemo a)
        (filter (fun u => negb (tid u =? tid tm)%nat) (timers a))
        (N.max (now a) (due tm)) (played a).
Proof.
  intros H. unfold fire, resume. destruct (kont tm); now unrender H.
Qed.

Lemma staleClosure_reaches raw a : reaches raw a -> staleClosure a.
Proof.
  induction 1 as [| a b _ IH Hstep]; [apply staleClosure_mount |].
  destruct Hstep.
  - unfold audioLoaded. stale_step.
  - now apply staleClosure_startRound.
  - now apply staleClosure_addDegree.
  - now apply staleClosure_removeLast.
  - now apply staleClosure_submit.
  - now apply staleClosure_replay.
  - now apply staleClosure_tryAgain.
  - now apply staleClosure_revealAnswer.
  - now apply staleClosure_fire.
  - exact IH.
Qed.

Ltac step_cases Hstep Hs :=
  destruct Hstep as [ | rnd H0 H1 Hguard | d Hd | | Hg | Hg | Hg Hc Hsh | Hg Hc Hsh
                      | tm Hin | t ];
  [ rewrite (audioLoaded_eq _ Hs)
  | destruct (startRound_cases rnd _ Hs H0 H1) as [[Hempty ->] | (s & Hsin & ->)]
  | destruct (addDegree_cases d _ Hs) as [-> | [Hans ->]]
  | destruct (removeLast_cases _ Hs) as [-> | [Hans ->]]
  | destruct (submit_cases _ Hs) as [-> | (cur & Hcur & Hua & ->)]
  | destruct (replay_cases _ Hs) as [-> | (cur & Hcur & Hnp & ->)]
  | destruct (tryAgain_cases _ Hs) as [-> | (cur & Hcur & Hnp & ->)]
  | rewrite (revealAnswer_eq _ Hs)
  | rewrite (fire_eq tm _ Hs)
  | unfold tick ].

Lemma NoDup_map_filter {A B} (f : A -> B) (p : A -> bool) l :
  NoDup (List.map f l) -> NoDup (List.map f (filter p l)).
Proof.
  induction l as [| x r IH]; simpl; intros H; [constructor |].
  inversion H as [| ? ? Hx Hr]; subst. destruct (p x); simpl; [| auto].
  constructor; [| auto]. intros Hin. apply Hx.
  apply in_map_iff in Hin. destruct Hin as (y & Hy & Hin).
  apply filter_In in Hin. apply in_map_iff. exists y. tauto.
Qed.

(** Each pending timer has its own identifier, given out before the last
    recorded playback. *)
Lemma timers_fresh raw a :
  reaches raw a ->
  NoDup (List.map tid (timers a))
  /\ Forall (fun t => (tid t < List.length (played a))%nat) (timers a).
Proof.
  assert (Hadd : forall ts (pl : list (list jsstring)) due k x,
             NoDup (List.map tid ts) /\ Forall (fun t => (tid t < List.length pl)%nat) ts ->
             NoDup (List.map tid (ts ++ [mkTimer (List.length pl) due k]))
             /\ Forall (fun t => (tid t < List.length (pl ++ [x]))%nat)
                       (ts ++ [mkTimer (List.length pl) due k])).
  { intros ts pl due0 k x [Hn Hf]. split.
    - rewrite map_app. simpl. apply NoDup_app.
      + assumption.
      + repeat constructor. auto.
      + intros i Hi [<- | []]. apply in_map_iff in Hi. destruct Hi as (t & Ht & Hi).
        rewrite Forall_forall in Hf. specialize (Hf t Hi). simpl in Ht. lia.
    - rewrite length_app. simpl. apply Forall_app. split.
      + eapply Forall_impl; [| exact Hf]. simpl. intros; lia.
      + repeat constructor. simpl. lia. }
  induction 1 as [| a b Ha IH Hstep]; [simpl; split; constructor |].
  pose proof (staleClosure_reaches raw a Ha) as Hs.
  step_cases Hstep Hs; simpl; try exact IH; try (now apply Hadd).
  destruct IH as [Hn Hf]. split; [now apply NoDup_map_filter |].
  apply Forall_forall. intros u Hu. apply filter_In in Hu.
  rewrite Forall_forall in Hf. now apply Hf.
Qed.

Lemma NoDup_map_inj {A B} (f : A -> B) l x y :
  NoDup (List.map f l) -> In x l -> In y l -> f x = f y -> x = y.
Proof.
  induction l as [| z r IH]; simpl; intros Hn Hx Hy Hf; [contradiction |].
  inversion Hn as [| ? ? Hz Hr]; subst.
  destruct Hx as [-> | Hx]; destruct Hy as [-> | Hy]; auto.
  - exfalso. apply Hz. rewrite Hf. now apply in_map.
  - exfalso. apply Hz. rewrite <- Hf. now apply in_map.
Qed.

Lemma roundTimers_filter p ts :
  roundTimers (filter p ts) = filter p (roundTimers ts).
Proof.
  unfold roundTimers. induction ts as [| t r IH]; simpl; [reflexivity |].
  destruct (p t) eqn:Ep; destruct (endsRound (kont t)) eqn:Ek; simpl;
    rewrite ?Ep, ?Ek, IH; reflexivity.
Qed.

Lemma roundTimers_app ts us : roundTimers (ts ++ us) = roundTimers ts ++ roundTimers us.
Proof. apply filter_app. Qed.

(** Removing a fired timer from the pending ones: the timers that end a
    round lose it if it is one of them, and are left alone otherwise. *)
Lemma roundTimers_fire ts tm :
  NoDup (List.map tid ts) -> In tm ts ->
  roundTimers (filter (fun u => negb (tid u =? tid tm)%nat) ts) =
  if endsRound (kont tm)
  then filter (fun u => negb (tid u =? tid tm)%nat) (roundTimers ts)
  else roundTimers ts.
Proof.
  intros Hn Hin. rewrite roundTimers_filter.
  destruct (endsRound (kont tm)) eqn:Ek; [reflexivity |].
  apply forallb_filter_id. apply forallb_forall. intros u Hu.
  unfold roundTimers in Hu. apply filter_In in Hu. destruct Hu as [Hu Hk].
  apply negb_true_iff. apply Nat.eqb_neq. intros Heq.
  assert (u = tm) by (eapply NoDup_map_inj; eauto). subst. congruence.
Qed.

(** The state is [playing] exactly while the playback of [startRound] or of
    [tryAgain] is in flight, and there is at most one such playback. *)
Lemma playing_round_timer raw a :
  reaches raw a ->
  (gameState (hooks a) = playing -> exists tm, roundTimers (timers a) = [tm])
  /\ (gameState (hooks a) <> playing -> roundTimers (timers a) = []).
Proof.
  induction 1 as [| a b Ha IH Hstep]; [simpl; split; [discriminate | reflexivity] |].
  pose proof (staleClosure_reaches raw a Ha) as Hs.
  pose proof (timers_fresh raw a Ha) as [Hn _].
  destruct IH as [IH1 IH2].
  step_cases Hstep Hs; simpl; try (split; assumption).
  - assert (Hr : roundTimers (timers a) = [])
      by (apply IH2; destruct Hguard as [[-> _] | [-> _]]; discriminate).
    rewrite roundTimers_app, Hr. simpl. split; [eauto | congruence].
  - rewrite Hg in IH2. split; [discriminate | intros _; apply IH2; discriminate].
  - rewrite roundTimers_app. simpl. rewrite app_nil_r. split; assumption.
  - assert (Hr : roundTimers (timers a) = []) by (apply IH2; rewrite Hg; discriminate).
    rewrite roundTimers_app, Hr. simpl. split; [eauto | congruence].
  - rewrite (roundTimers_fire _ tm Hn Hin).
    destruct (endsRound (kont tm)) eqn:Ek; [| split; assumption].
    split; [discriminate | intros _].
    assert (Hin' : In tm (roundTimers (timers a)))
      by (apply filter_In; split; assumption).
    destruct (gameState (hooks a)) eqn:Hg;
      try (rewrite IH2 in Hin' by discriminate; contradiction).
    destruct (IH1 eq_refl) as (x & Hx). rewrite Hx in *.
    destruct Hin' as [-> | []]. simpl. now rewrite Nat.eqb_refl.
Qed.

(** While the flag [isPlaying] is set a playback is in flight. *)
Lemma isPlaying_in_flight raw a :
  reaches raw a -> isPlaying (hooks a) = true -> timers a <> [].
Proof.
  induction 1 as [| a b Ha IH Hstep]; [discriminate |].
  pose proof (staleClosure_reaches raw a Ha) as Hs.
  step_cases Hstep Hs; simpl; try exact IH;
    try (intros _ Habs; now apply app_eq_nil in Habs as [_ Habs]).
  discriminate.
Qed.

(** The collection is the parsed parameter, the chosen sequence is one of
    its members, and whatever has been played is the notes of a member. *)
Lemma collection_fixed raw a :
  reaches raw a ->
  sequences (hooks a) = mkArray 1 (allocate 2 (parseSequences raw))
  /\ (forall c, current (hooks a) = Some c -> In c (items (sequences (hooks a))))
  /\ Forall (fun ns => exists c, In c (items (sequences (hooks a)))
                                 /\ ns = notes (obj c)) (played a).
Proof.
  induction 1 as [| a b Ha IH Hstep].
  - simpl. split; [reflexivity |]. split; [discriminate | constructor].
  - pose proof (staleClosure_reaches raw a Ha) as Hs.
    destruct IH as (IH1 & IH2 & IH3).
    step_cases Hstep Hs; simpl; try (split; [| split]; assumption).
    + split; [assumption |]. split; [now intros c [= <-] |].
      apply Forall_app. split; [assumption |]. repeat constructor. eauto.
    + split; [assumption |]. split; [assumption |].
      apply Forall_app. split; [assumption |]. repeat constructor. eauto.
    + split; [assumption |]. split; [assumption |].
      apply Forall_app. split; [assumption |]. repeat constructor. eauto.
Qed.

(** The component is idle exactly as long as no sequence has been chosen,
    and then nothing of a round is there. *)
Lemma idle_before_first_round raw a :
  reaches raw a ->
  (gameState (hooks a) = idle <-> current (hooks a) = None)
  /\ (gameState (hooks a) = idle ->
      userAnswer (hooks a) = [] /\ timers a = [] /\ played a = []
      /\ isCorrect (hooks a) = None /\ showAnswer (hooks a) = false
      /\ isPlaying (hooks a) = false).
Proof.
  induction 1 as [| a b Ha IH Hstep].
  - simpl. repeat split; reflexivity.
  - pose proof (staleClosure_reaches raw a Ha) as Hs.
    destruct IH as (IH1 & IH2).
    step_cases Hstep Hs; simpl; try (split; assumption);
      try (split; [split; discriminate | discriminate]).
    + rewrite Hans in *. split; [exact IH1 | discriminate].
    + rewrite Hans in *. split; [exact IH1 | discriminate].
    + rewrite Hcur in *. split; [split; [discriminate | congruence] | discriminate].
    + rewrite Hcur in *. split; [exact IH1 |].
      intros Hi. apply IH1 in Hi. discriminate.
    + rewrite Hcur in *. split; [split; discriminate | discriminate].
    + rewrite Hg in *. split; [exact IH1 | discriminate].
    + assert (Hni : gameState (hooks a) <> idle).
      { intros Hi. destruct (IH2 Hi) as (_ & Ht & _). rewrite Ht in Hin. contradiction. }
      assert (Hni' : (if endsRound (kont tm) then answering else gameState (hooks a))
                     <> idle) by (destruct (endsRound (kont tm)); [discriminate | assumption]).
      split; [| intros Hi; contradiction].
      split; [intros Hi; contradiction |].
      intros Hc. apply IH1 in Hc. contradiction.
Qed.

Lemma Forall_removelast {A} (P : A -> Prop) l : Forall P l -> Forall P (removelast l).
Proof.
  induction 1 as [| x r Hx Hr IH]; simpl; [constructor |].
  destruct r; [constructor | constructor; assumption].
Qed.

(** The answer only holds degrees between 1 and 7. *)
Lemma answer_in_range raw a :
  reaches raw a -> Forall (fun d => (1 <= d <= 7)%nat) (userAnswer (hooks a)).
Proof.
  induction 1 as [| a b Ha IH Hstep]; [constructor |].
  pose proof (staleClosure_reaches raw a Ha) as Hs.
  step_cases Hstep Hs; simpl; try exact IH; try constructor.
  - apply Forall_app. split; [assumption | constructor; [lia | constructor]].
  - now apply Forall_removelast.
Qed.

(** The verdict shown in the state [result] is the grade of the answer that
    is shown against the chosen sequence; outside that state there is no
    verdict and nothing is revealed; and only a wrong answer is revealed. *)
Lemma verdict_matches_answer raw a :
  reaches raw a ->
  (gameState (hooks a) = result ->
   exists cur, current (hooks a) = Some cur /\ userAnswer (hooks a) <> []
               /\ isCorrect (hooks a)
                  = Some (grade (userAnswer (hooks a)) (degrees (obj cur))))
  /\ (gameState (hooks a) <> result ->
      isCorrect (hooks a) = None /\ showAnswer (hooks a) = false)
  /\ (showAnswer (hooks a) = true -> isCorrect (hooks a) = Some false).
Proof.
  induction 1 as [| a b Ha IH Hstep].
  - simpl. split; [discriminate |]. split; [auto | discriminate].
  - pose proof (staleClosure_reaches raw a Ha) as Hs.
    pose proof (playing_round_timer raw a Ha) as [_ Hround].
    destruct IH as (IH1 & IH2 & IH3).
    step_cases Hstep Hs; simpl; try (split; [| split]; assumption);
      try (split; [discriminate |]; split; [auto | discriminate]).
    + rewrite Hans in *. destruct IH2 as [Hc Hsh]; [discriminate |].
      split; [discriminate |]. split; [auto | congruence].
    + rewrite Hans in *. destruct IH2 as [Hc Hsh]; [discriminate |].
      split; [discriminate |]. split; [auto | congruence].
    + rewrite Hg in *. destruct IH2 as [Hc Hsh]; [discriminate |].
      split; [intros _; exists cur; auto |]. split; [congruence | congruence].
    + split; [discriminate |]. split; [auto | congruence].
    + destruct (IH1 Hg) as (cur & Hcur & Hua & Hic).
      split; [intros _; eauto |]. split; [congruence |].
      intros _. rewrite Hic in *. destruct (grade _ _); [discriminate | reflexivity].
    + destruct (endsRound (kont tm)) eqn:Ek; [| split; [| split]; assumption].
      assert (Hp : gameState (hooks a) = playing).
      { destruct (gameState (hooks a)) eqn:Hg; try reflexivity;
          exfalso;
          assert (Hin' : In tm (roundTimers (timers a)))
            by (apply filter_In; split; assumption);
          rewrite Hround in Hin' by discriminate; contradiction. }
      rewrite Hp in *. destruct IH2 as [Hc Hsh]; [discriminate |].
      split; [discriminate |]. split; [auto | congruence].
Qed.

(** ** More about the round *)

Ltac reach :=
  repeat match goal with
    | |- reachable _ (mount _) => apply reach_mount
    | |- reachable _ (audioLoaded _) => apply reach_loaded
    | |- reachable _ (advanceTo _ _) => apply reach_time
    | |- reachable _ (keyHandler _ _ _) =>
        apply reach_key; [| unfold Qle; simpl; lia | unfold Qlt; simpl; lia]
    end.

Lemma firstRoundDone_reachable : reachable (lit "C;D") firstRoundDone.
Proof. cbv beta iota delta [firstRoundDone run fold_left]. reach. Qed.

Lemma answered145_reachable : reachable (lit "CFGc;C,EGc") answered145.
Proof. cbv beta iota delta [answered145 run fold_left]. reach. Qed.

Lemma replayOutlivesRound_reachable : reachable (lit "CDEFGAB;C") replayOutlivesRound.
Proof. cbv beta iota delta [replayOutlivesRound run fold_left]. reach. Qed.

Lemma filter_split_length {A} (p : A -> bool) l :
  (List.length (filter p l) + List.length (filter (fun x => negb (p x)) l)
   = List.length l)%nat.
Proof.
  induction l as [| x r IH]; simpl; [reflexivity |].
  destruct (p x); simpl; lia.
Qed.

Lemma same_address_once arr e :
  NoDup (List.map addr arr) ->
  (List.length (filter (fun item => sameRef item e) arr) <= 1)%nat.
Proof.
  induction arr as [| x r IH]; simpl; intros Hn; [lia |].
  inversion Hn as [| ? ? Hx Hr]; subst. specialize (IH Hr).
  destruct (sameRef x e) eqn:E; [| assumption]. simpl.
  assert (Hnone : filter (fun item => sameRef item e) r = []).
  { destruct (filter (fun item => sameRef item e) r) as [| y ys] eqn:F; [reflexivity |].
    exfalso. assert (Hy : In y (filter (fun item => sameRef item e) r))
      by (rewrite F; now left).
    apply filter_In in Hy. destruct Hy as [Hy Hs]. apply Hx.
    unfold sameRef in *. apply Nat.eqb_eq in E, Hs. rewrite E, <- Hs. now apply in_map. }
  rewrite Hnone. simpl. lia.
Qed.

(** X9: on an array of distinct objects [pickRandom] always returns a member
    of the array, and when the array has more than one member the one it
    returns is not the excluded object. *)
Theorem pick_random_distinct (arr : list SeqRef) (exclude : option SeqRef) (rnd : Q) :
  NoDup (List.map addr arr) -> arr <> [] -> (0 <= rnd)%Q -> (rnd < 1)%Q ->
  exists x,
    pickRandom sameRef arr exclude rnd = Some x /\ In x arr
    /\ ((1 < List.length arr)%nat -> forall e, exclude = Some e -> addr x <> addr e).
Proof.
  intros Hn Hne H0 H1.
  assert (Hsome : exists x, pickRandom sameRef arr exclude rnd = Some x).
  { destruct exclude as [e |].
    - unfold pickRandom. destruct (Nat.leb_spec (List.length arr) 1) as [Hle | Hgt].
      + destruct arr as [| x r]; [congruence | simpl; eauto].
      + set (filtered := filter (fun item => negb (sameRef item e)) arr).
        assert (Hlen : (0 < List.length filtered)%nat).
        { pose proof (filter_split_length (fun item => sameRef item e) arr).
          pose proof (same_address_once arr e Hn). unfold filtered. lia. }
        destruct (nth_error filtered (floorIndex rnd (List.length filtered))) eqn:E;
          [eauto |].
        apply nth_error_None in E.
        pose proof (floorIndex_lt rnd (List.length filtered) H0 H1 Hlen). lia.
    - destruct (pickRandom_null sameRef arr rnd Hne H0 H1) as (x & Hx & _). eauto. }
  destruct Hsome as (x & Hx). exists x. split; [assumption |].
  destruct (pickRandom_sound sameRef arr exclude rnd x Hx) as [Hin Hex].
  split; [assumption |]. intros Hlen e He.
  specialize (Hex Hlen e He). unfold sameRef in Hex. now apply Nat.eqb_neq.
Qed.

Lemma pick_random_distinct_witness :
  exists x,
    pickRandom sameRef [mkRef 2 (mkSequence [lit "C4"] [1%nat]);
                        mkRef 3 (mkSequence [lit "D4"] [2%nat])]
               (Some (mkRef 2 (mkSequence [lit "C4"] [1%nat]))) (1 # 3) = Some x
    /\ In x [mkRef 2 (mkSequence [lit "C4"] [1%nat]);
              mkRef 3 (mkSequence [lit "D4"] [2%nat])]
    /\ ((1 < 2)%nat ->
        forall e, Some (mkRef 2 (mkSequence [lit "C4"] [1%nat])) = Some e ->
                  addr x <> addr e).
Proof.
  apply (pick_random_distinct
           [mkRef 2 (mkSequence [lit "C4"] [1%nat]);
            mkRef 3 (mkSequence [lit "D4"] [2%nat])]).
  - simpl. repeat constructor; simpl; intuition lia.
  - discriminate.
  - unfold Qle. simpl. lia.
  - unfold Qlt. simpl. lia.
Defined.

Lemma floorIndex_one rnd : (0 <= rnd)%Q -> (rnd < 1)%Q -> floorIndex rnd 1 = 0%nat.
Proof.
  intros H0 H1. pose proof (floorIndex_lt rnd 1 H0 H1). lia.
Qed.

(** With nothing to exclude, [pickRandom] returns the member at the index
    [Math.floor(rnd * n)]. *)
Lemma pickRandom_null_index (arr : list SeqRef) rnd :
  arr <> [] -> (0 <= rnd)%Q -> (rnd < 1)%Q ->
  pickRandom sameRef arr None rnd = nth_error arr (floorIndex rnd (List.length arr)).
Proof.
  intros Hne H0 H1. unfold pickRandom.
  destruct (Nat.leb_spec (List.length arr) 1) as [Hle | Hgt].
  - destruct arr as [| x [| y r]]; [congruence | |].
    + simpl List.length. now rewrite floorIndex_one.
    + simpl in Hle. lia.
  - assert (Hf : forall l : list SeqRef, filter (fun _ => true) l = l)
      by (induction l as [| y r IH]; simpl; [| rewrite IH]; reflexivity).
    now rewrite Hf.
Qed.

(** X11: starting a round, in any state the component reaches: on an empty
    collection nothing happens; otherwise a member of the collection is
    chosen, the answer is emptied, the verdict and the reveal are cleared,
    the state is [playing] with the flag [isPlaying] set, and one playback is
    requested, of the notes of the chosen sequence. *)
Theorem start_round_resets (raw : jsstring) (a : App) (rnd : Q) :
  reachable raw a -> (0 <= rnd)%Q -> (rnd < 1)%Q ->
  (items (sequences (hooks a)) = [] /\ startRound rnd a = a)
  \/ exists s,
       In s (items (sequences (hooks a)))
       /\ hooks (startRound rnd a)
          = mkHooks (sequences (hooks a)) (Some s) [] playing None false true
                    (isLoading (hooks a))
       /\ played (startRound rnd a) = played a ++ [notes (obj s)]
       /\ List.length (timers (startRound rnd a)) = S (List.length (timers a)).
Proof.
  intros Hr H0 H1. pose proof (staleClosure_reachable raw a Hr) as Hs.
  destruct (startRound_cases rnd a Hs H0 H1) as [He | (s & Hin & ->)]; [now left | right].
  exists s. simpl. rewrite length_app. simpl. repeat split; auto. lia.
Qed.

Lemma start_round_resets_witness :
  startRound 0 (mount []) = mount []
  /\ userAnswer (hooks (startRound 0 firstRoundDone)) = []
  /\ isCorrect (hooks (startRound 0 firstRoundDone)) = None.
Proof.
  split.
  - destruct (start_round_resets [] (mount []) 0 (reach_mount []) (Qle_refl 0) eq_refl)
      as [[_ H] | (s & Hin & _)]; [exact H | destruct Hin].
  - destruct (start_round_resets (lit "C;D") firstRoundDone 0
                firstRoundDone_reachable (Qle_refl 0) eq_refl)
      as [[H _] | (s & _ & Hh & _)]; [discriminate H |].
    rewrite Hh. split; reflexivity.
Defined.

(** X12: undoing what was just added gives back the state as it was: in
    every state the component reaches, [removeLast] after [addDegree] is the
    identity. *)
Theorem remove_last_undoes_add (raw : jsstring) (a : App) (d : nat) :
  reachable raw a -> removeLast (addDegree d a) = a.
Proof.
  intros Hr. pose proof (staleClosure_reachable raw a Hr) as Hs.
  destruct (addDegree_cases d a Hs) as [E | [Hans E]].
  - rewrite E. unfold addDegree in E. unfold removeLast.
    destruct (gameState (hooks a)) eqn:Hg; try reflexivity.
    exfalso. apply (f_equal (fun x => List.length (userAnswer (hooks x)))) in E.
    rewrite render_hooks in E. simpl in E. rewrite length_app in E. simpl in E. lia.
  - rewrite E.
    set (b := mkApp _ _ _ _ _).
    assert (Hsb : staleClosure b) by (unfold staleClosure in *; simpl; exact Hs).
    destruct (removeLast_cases b Hsb) as [E' | [_ E']].
    + unfold removeLast in E'. simpl in E'. rewrite Hans in E'.
      exfalso. apply (f_equal (fun x => List.length (userAnswer (hooks x)))) in E'.
      rewrite render_hooks in E'. simpl in E'.
      rewrite removelast_last, length_app in E'. simpl in E'. lia.
    + rewrite E'. simpl. rewrite removelast_last.
      destruct a as [h m ts n p]. destruct h. reflexivity.
Qed.

Lemma remove_last_undoes_add_witness :
  removeLast (addDegree 2 answered145) = answered145.
Proof.
  apply (remove_last_undoes_add (lit "CFGc;C,EGc")).
  exact answered145_reachable.
Defined.

(** X13: in every state the component reaches, the answer holds degrees
    between 1 and 7 only. *)
Theorem answer_degrees_in_range (raw : jsstring) (a : App) :
  reachable raw a -> Forall (fun d => (1 <= d <= 7)%nat) (userAnswer (hooks a)).
Proof.
  intros Hr. apply (answer_in_range raw). now apply reachable_reaches.
Qed.

Lemma answer_degrees_in_range_witness :
  Forall (fun d => (1 <= d <= 7)%nat)
         (userAnswer (hooks (keyHandler 0 (KeyDigit 9) answered145))).
Proof.
  apply (answer_degrees_in_range (lit "CFGc;C,EGc")).
  apply reach_key; [exact answered145_reachable | apply Qle_refl | reflexivity].
Defined.

(** X14: in every state the component reaches, the verdict goes with the
    state [result] and is the grade of the answer on display against the
    chosen sequence: in [result] there is a chosen sequence, a non-empty
    answer and the verdict is their grade; in any other state there is no
    verdict and the answer is not revealed; and the answer is only ever
    revealed after a wrong verdict. *)
Theorem verdict_is_grade_of_answer (raw : jsstring) (a : App) :
  reachable raw a ->
  (gameState (hooks a) = result ->
   exists cur, current (hooks a) = Some cur /\ userAnswer (hooks a) <> []
               /\ isCorrect (hooks a)
                  = Some (grade (userAnswer (hooks a)) (degrees (obj cur))))
  /\ (gameState (hooks a) <> result ->
      isCorrect (hooks a) = None /\ showAnswer (hooks a) = false)
  /\ (showAnswer (hooks a) = true -> isCorrect (hooks a) = Some false).
Proof.
  intros Hr. apply (verdict_matches_answer raw). now apply reachable_reaches.
Qed.

Lemma verdict_is_grade_of_answer_witness :
  exists cur, current (hooks firstRoundDone) = Some cur
              /\ userAnswer (hooks firstRoundDone) <> []
              /\ isCorrect (hooks firstRoundDone)
                 = Some (grade (userAnswer (hooks firstRoundDone)) (degrees (obj cur))).
Proof.
  apply (verdict_is_grade_of_answer (lit "C;D") firstRoundDone).
  - exact firstRoundDone_reachable.
  - reflexivity.
Defined.

(** X15: in every state the component reaches, the state is [playing]
    exactly while the playback of a round, started by [startRound] or by
    [tryAgain], is in flight, never more than one such playback is in
    flight, and a set flag [isPlaying] means that some playback is in
    flight. *)
Theorem playing_while_round_playback (raw : jsstring) (a : App) :
  reachable raw a ->
  (gameState (hooks a) = playing <-> roundTimers (timers a) <> [])
  /\ (List.length (roundTimers (timers a)) <= 1)%nat
  /\ (isPlaying (hooks a) = true -> inFlight a = true).
Proof.
  intros Hr. apply reachable_reaches in Hr.
  destruct (playing_round_timer raw a Hr) as [H1 H2].
  pose proof (isPlaying_in_flight raw a Hr) as H3.
  split; [split |]; [| | split].
  - intros Hp. destruct (H1 Hp) as (tm & ->). discriminate.
  - intros Hne. destruct (gameState (hooks a)) eqn:Hg; try reflexivity;
      exfalso; apply Hne, H2; discriminate.
  - destruct (gameState (hooks a)) eqn:Hg;
      try (rewrite H2 by discriminate; simpl; lia).
    destruct (H1 eq_refl) as (tm & ->). simpl. lia.
  - intros Hp. specialize (H3 Hp). unfold inFlight.
    destruct (timers a); [congruence | reflexivity].
Qed.

Lemma playing_while_round_playback_witness :
  (gameState (hooks replayOutlivesRound) = playing
   <-> roundTimers (timers replayOutlivesRound) <> [])
  /\ (List.length (roundTimers (timers replayOutlivesRound)) <= 1)%nat
  /\ (isPlaying (hooks replayOutlivesRound) = true -> inFlight replayOutlivesRound = true).
Proof.
  apply (playing_while_round_playback (lit "CDEFGAB;C")).
  exact replayOutlivesRound_reachable.
Defined.

Lemma earliest_None ts : earliest ts = None -> ts = [].
Proof.
  destruct ts as [| t r]; simpl; [reflexivity |].
  destruct (earliest r) as [u |]; [destruct (due t <=? due u) |]; discriminate.
Qed.

Lemma earliest_least ts tm :
  earliest ts = Some tm -> Forall (fun u => due tm <= due u) ts.
Proof.
  revert tm. induction ts as [| t r IH]; intros tm; simpl; [constructor |].
  destruct (earliest r) as [u |] eqn:E.
  - specialize (IH u eq_refl).
    destruct (N.leb_spec (due t) (due u)); intros [= <-].
    + constructor; [lia |]. eapply Forall_impl; [| exact IH]. simpl. intros; lia.
    + constructor; [lia | assumption].
  - intros [= <-]. apply earliest_None in E. subst. repeat constructor. lia.
Qed.

Lemma filter_length_lt {A} (p : A -> bool) l x :
  In x l -> p x = false -> (List.length (filter p l) < List.length l)%nat.
Proof.
  induction l as [| y r IH]; simpl; [contradiction |].
  intros [-> | Hin] Hp.
  - rewrite Hp. pose proof (filter_length_le p r). lia.
  - specialize (IH Hin Hp). destruct (p y); simpl; lia.
Qed.

(** With fuel for every pending timer, [runDue] fires each timer due by [t]
    and sets no new one. *)
Lemma runDue_fires fuel t : forall a,
  staleClosure a -> (List.length (timers a) <= fuel)%nat ->
  Forall (fun tm => t < due tm) (timers (runDue fuel t a))
  /\ incl (timers (runDue fuel t a)) (timers a).
Proof.
  induction fuel as [| fuel IH]; intros a Hs Hlen; simpl.
  - destruct (timers a); [split; [constructor | apply incl_refl] | simpl in Hlen; lia].
  - destruct (earliest (timers a)) as [tm |] eqn:E.
    + destruct (N.leb_spec (due tm) t) as [Hdue | Hdue].
      * pose proof (earliest_In _ _ E) as Hin.
        assert (Ht : timers (fire tm a)
                     = filter (fun u => negb (tid u =? tid tm)%nat) (timers a))
          by (now rewrite (fire_eq tm a Hs)).
        destruct (IH (fire tm a)) as [H1 H2].
        -- now apply staleClosure_fire.
        -- rewrite Ht.
           assert ((List.length (filter (fun u => negb (tid u =? tid tm)%nat) (timers a))
                    < List.length (timers a))%nat)
             by (apply (filter_length_lt _ _ tm Hin); now rewrite Nat.eqb_refl).
           lia.
        -- split; [assumption |]. eapply incl_tran; [exact H2 |].
           rewrite Ht. apply incl_filter.
      * split; [| apply incl_refl].
        eapply Forall_impl; [| exact (earliest_least _ _ E)]. simpl. intros; lia.
    + apply earliest_None in E. rewrite E. split; [constructor | apply incl_refl].
Qed.

(** Once the time is past the last pending timer, none is left. *)
Lemma advance_drains raw a t :
  reachable raw a -> Forall (fun tm => due tm <= t) (timers a) ->
  timers (advanceTo t a) = []
  /\ isPlaying (hooks (advanceTo t a)) = false
  /\ gameState (hooks (advanceTo t a)) <> playing.
Proof.
  intros Hr Hall. pose proof (staleClosure_reachable raw a Hr) as Hs.
  destruct (runDue_fires (List.length (timers a)) t a Hs (le_n _)) as [H1 H2].
  assert (Hnil : timers (advanceTo t a) = []).
  { change (timers (advanceTo t a)) with (timers (runDue (List.length (timers a)) t a)).
    destruct (timers (runDue (List.length (timers a)) t a)) as [| u us] eqn:E;
      [reflexivity | exfalso].
    inversion H1 as [| ? ? Hu _]; subst.
    rewrite Forall_forall in Hall. specialize (Hall u (H2 u (or_introl eq_refl))). lia. }
  assert (Hr' : reaches raw (advanceTo t a))
    by (apply reachable_reaches; now apply reach_time).
  split; [assumption |]. split.
  - destruct (isPlaying (hooks (advanceTo t a))) eqn:Hp; [| reflexivity].
    exfalso. now apply (isPlaying_in_flight raw _ Hr' Hp).
  - intros Hp. destruct (playing_round_timer raw _ Hr') as [Hex _].
    destruct (Hex Hp) as (tm & Htm). rewrite Hnil in Htm. discriminate.
Qed.

(** Firing timers leaves the round as it is, but for the flag [isPlaying]
    and for the state, which can only change to [answering]. *)
Lemma runDue_frame fuel t : forall b,
  staleClosure b ->
  current (hooks (runDue fuel t b)) = current (hooks b)
  /\ userAnswer (hooks (runDue fuel t b)) = userAnswer (hooks b)
  /\ isCorrect (hooks (runDue fuel t b)) = isCorrect (hooks b)
  /\ showAnswer (hooks (runDue fuel t b)) = showAnswer (hooks b)
  /\ played (runDue fuel t b) = played b
  /\ (gameState (hooks (runDue fuel t b)) = gameState (hooks b)
      \/ gameState (hooks (runDue fuel t b)) = answering).
Proof.
  induction fuel as [| fuel IH]; intros b Hb; simpl; [repeat split; auto |].
  destruct (earliest (timers b)) as [tm |]; [| repeat split; auto].
  destruct (due tm <=? t); [| repeat split; auto].
  destruct (IH (fire tm b) (staleClosure_fire tm b Hb)) as (H1 & H2 & H3 & H4 & H5 & H6).
  rewrite H1, H2, H3, H4, H5. rewrite (fire_eq tm b Hb) in *. simpl in *.
  repeat split; auto.
  destruct H6 as [-> | ->]; [| now right].
  destruct (endsRound (kont tm)); auto.
Qed.

(** X16: when time passes until [t], in any state the component reaches,
    every playback due by [t] resolves and no playback is started; once the
    time is past the last pending playback nothing is in flight, the flag
    [isPlaying] is clear and the state is not [playing] any more. *)
Theorem advance_resolves_due_playbacks (raw : jsstring) (a : App) (t : N) :
  reachable raw a ->
  Forall (fun tm => t < due tm) (timers (advanceTo t a))
  /\ incl (timers (advanceTo t a)) (timers a)
  /\ played (advanceTo t a) = played a
  /\ (Forall (fun tm => due tm <= t) (timers a) ->
      inFlight (advanceTo t a) = false
      /\ isPlaying (hooks (advanceTo t a)) = false
      /\ gameState (hooks (advanceTo t a)) <> playing).
Proof.
  intros Hr. pose proof (staleClosure_reachable raw a Hr) as Hs.
  destruct (runDue_fires (List.length (timers a)) t a Hs (le_n _)) as [H1 H2].
  destruct (runDue_frame (List.length (timers a)) t a Hs) as (_ & _ & _ & _ & Hpl & _).
  split; [exact H1 |]. split; [exact H2 |]. split; [exact Hpl |].
  intros Hall. destruct (advance_drains raw a t Hr Hall) as (Hnil & Hp & Hg).
  split; [unfold inFlight; now rewrite Hnil | split; assumption].
Qed.

Lemma advance_resolves_due_playbacks_witness :
  inFlight (advanceTo 9200 replayOutlivesRound) = false
  /\ isPlaying (hooks (advanceTo 9200 replayOutlivesRound)) = false
  /\ gameState (hooks (advanceTo 9200 replayOutlivesRound)) <> playing.
Proof.
  apply (advance_resolves_due_playbacks (lit "CDEFGAB;C") replayOutlivesRound 9200
           replayOutlivesRound_reachable).
  vm_compute. repeat constructor. discriminate.
Defined.

Lemma allocate_In l : forall start c, In c (allocate start l) -> In (obj c) l.
Proof.
  induction l as [| s r IH]; intros start c; simpl; [auto |].
  intros [<- | Hin]; [now left | right; eauto].
Qed.

(** X17: with a parameter that yields no sequence the component stays idle
    whatever happens: no sequence is chosen, nothing is played and no
    answer is taken. *)
Theorem empty_collection_stays_idle (raw : jsstring) (a : App) :
  parseSequences raw = [] -> reachable raw a ->
  gameState (hooks a) = idle /\ current (hooks a) = None
  /\ userAnswer (hooks a) = [] /\ played a = [] /\ timers a = [].
Proof.
  intros Hp Hr. apply reachable_reaches in Hr.
  destruct (collection_fixed raw a Hr) as (Hseq & Hcur & _).
  destruct (idle_before_first_round raw a Hr) as (Hiff & Hidle).
  assert (Hnone : current (hooks a) = None).
  { destruct (current (hooks a)) as [c |]; [| reflexivity].
    specialize (Hcur c eq_refl). rewrite Hseq, Hp in Hcur. contradiction. }
  assert (Hi : gameState (hooks a) = idle) by now apply Hiff.
  destruct (Hidle Hi) as (Hu & Ht & Hpl & _). auto.
Qed.

Lemma empty_collection_stays_idle_witness :
  let a := keyHandler 0 KeyEnter (audioLoaded (mount (lit "xyz;;"))) in
  gameState (hooks a) = idle /\ current (hooks a) = None
  /\ userAnswer (hooks a) = [] /\ played a = [] /\ timers a = [].
Proof.
  apply (empty_collection_stays_idle (lit "xyz;;")); [reflexivity | reach].
Defined.

(** X18: whatever is handed to [playSequence], in any run of the component,
    is the list of notes of a parsed sequence, each note an uppercase letter
    A-G and a digit, and the chosen sequence is a parsed sequence. *)
Theorem only_parsed_notes_are_played (raw : jsstring) (a : App) :
  reachable raw a ->
  Forall (fun ns => (exists s, In s (parseSequences raw) /\ ns = notes s)
                    /\ Forall canonical ns /\ ns <> [])
         (played a)
  /\ (forall c, current (hooks a) = Some c -> In (obj c) (parseSequences raw)).
Proof.
  intros Hr. apply reachable_reaches in Hr.
  destruct (collection_fixed raw a Hr) as (Hseq & Hcur & Hpl).
  rewrite Hseq in *. simpl in *. split.
  - eapply Forall_impl; [| exact Hpl]. simpl. intros ns (c & Hc & ->).
    apply allocate_In in Hc.
    destruct (parsed_notes_canonical raw (obj c) Hc) as (Hne & Hcan & _).
    split; [eauto | split; assumption].
  - intros c Hc. eapply allocate_In. eauto.
Qed.

Lemma only_parsed_notes_are_played_witness :
  Forall (fun ns => (exists s, In s (parseSequences (lit "CDEFGAB;C")) /\ ns = notes s)
                    /\ Forall canonical ns /\ ns <> [])
         (played replayOutlivesRound)
  /\ (forall c, current (hooks replayOutlivesRound) = Some c ->
                In (obj c) (parseSequences (lit "CDEFGAB;C"))).
Proof.
  apply (only_parsed_notes_are_played (lit "CDEFGAB;C")).
  exact replayOutlivesRound_reachable.
Defined.

(** As long as the audio is loading the component is idle. *)
Lemma loading_idle raw a :
  reaches raw a -> isLoading (hooks a) = true -> gameState (hooks a) = idle.
Proof.
  induction 1 as [| a b Ha IH Hstep]; [reflexivity |].
  pose proof (staleClosure_reaches raw a Ha) as Hs.
  pose proof (idle_before_first_round raw a Ha) as [Hiff Hidle].
  step_cases Hstep Hs; simpl; try exact IH; try discriminate.
  all: intros Hl; specialize (IH Hl).
  - destruct Hguard as [[_ Hn] | [Hg _]]; congruence.
  - congruence.
  - congruence.
  - destruct (Hidle IH) as (_ & Ht & _). rewrite Ht in Hin. contradiction.
Qed.

(** X19: until the audio has loaded, no key has any effect on the round: in
    every state the component reaches while it is loading it is idle, with
    no sequence chosen, nothing played and no answer taken. *)
Theorem nothing_starts_while_loading (raw : jsstring) (a : App) :
  reachable raw a -> isLoading (hooks a) = true ->
  gameState (hooks a) = idle /\ current (hooks a) = None
  /\ userAnswer (hooks a) = [] /\ played a = [] /\ timers a = [].
Proof.
  intros Hr Hl. apply reachable_reaches in Hr.
  pose proof (loading_idle raw a Hr Hl) as Hi.
  destruct (idle_before_first_round raw a Hr) as (Hiff & Hidle).
  destruct (Hidle Hi) as (Hu & Ht & Hpl & _).
  split; [assumption |]. split; [now apply Hiff | auto].
Qed.

Lemma nothing_starts_while_loading_witness :
  let a := keyHandler 0 KeyEnter (mount (lit "C;D")) in
  gameState (hooks a) = idle /\ current (hooks a) = None
  /\ userAnswer (hooks a) = [] /\ played a = [] /\ timers a = [].
Proof.
  apply (nothing_starts_while_loading (lit "C;D")); [reach | reflexivity].
Defined.

(** ** Buttons *)

(** X20: every button that is on the page and not disabled does exactly
    what a key does: Enter for the start, submit, retry and next buttons,
    the digit for a degree button, Backspace for undo, R for replay and S
    for reveal. *)
Theorem click_is_a_key (rnd : Q) (b : Button) (a : App) :
  clickable b a = true -> click rnd b a = keyHandler rnd (keyOf b) a.
Proof.
  intros H. unfold click. rewrite H. unfold clickable in H.
  apply andb_true_iff in H. destruct H as [_ H].
  unfold keyHandler, onClick, keyOf.
  destruct b; destruct (gameState (hooks a)); try discriminate H;
    cbv beta iota delta [isEnterOrSpace].
  - now rewrite H.
  - apply Nat.ltb_lt in H.
    assert (E1 : (1 <=? i + 1)%nat = true) by (apply Nat.leb_le; lia).
    assert (E2 : (i + 1 <=? 7)%nat = true) by (apply Nat.leb_le; lia).
    now rewrite E1, E2.
  - reflexivity.
  - reflexivity.
  - reflexivity.
  - apply andb_true_iff in H. destruct H as [H _].
    apply andb_true_iff in H. destruct H as [Hc Hs].
    apply negb_true_iff in Hc, Hs. now rewrite Hc, Hs.
  - apply andb_true_iff in H. destruct H as [Hc Hs].
    apply negb_true_iff in Hc, Hs. now rewrite Hc, Hs.
  - now rewrite H.
Qed.

Lemma click_is_a_key_witness :
  click 0 BtnNext firstRoundDone = keyHandler 0 KeyEnter firstRoundDone
  /\ click 0 (BtnDegree 4) answered145 = keyHandler 0 (KeyDigit 5) answered145.
Proof.
  split.
  - apply (click_is_a_key 0 BtnNext firstRoundDone). reflexivity.
  - apply (click_is_a_key 0 (BtnDegree 4) answered145). reflexivity.
Defined.

(** ** The audio module *)

Lemma audioInv_step s e : audioInv s -> audioInv (audioStep s e).
Proof.
  unfold audioInv. destruct s as [ctx pn lp cc ir]. simpl.
  intros (H1 & H2 & H3 & H4).
  destruct e as [| ok]; simpl.
  - unfold getPiano, getAudioContext. simpl.
    destruct ctx, pn, lp as [[| |] |]; simpl in *; subst;
      repeat split; intros; auto; try discriminate; try tauto;
      try (exfalso; assert (false = true) by (apply H3; discriminate); discriminate).
  - unfold settle. simpl.
    destruct lp as [[| |] |], ok, pn; simpl in *; subst;
      repeat split; intros; auto; try discriminate; try tauto;
      try (exfalso; assert (Some Pending = Some Fulfilled) by (now apply H4);
           discriminate).
  all: apply H3; discriminate.
Qed.

Lemma audio_invariant events : audioInv (audioRun events).
Proof.
  unfold audioRun.
  assert (Hgen : forall s, audioInv s -> audioInv (fold_left audioStep events s)).
  { induction events as [| e es IH]; intros s Hs; [exact Hs |].
    simpl. apply IH. now apply audioInv_step. }
  apply Hgen. unfold audioInv. simpl. repeat split; auto; discriminate.
Qed.

(** X21: however often [getPiano] is called, through [loadAudio] or
    through [playSequence], and whenever the load settles, the module
    creates at most one audio context and requests the instrument at most
    once; a player is stored exactly when the load has been fulfilled. *)
Theorem audio_loads_once (events : list AudioEvent) :
  (contextsCreated (audioRun events) <= 1)%nat
  /\ (instrumentsRequested (audioRun events) <= 1)%nat
  /\ (piano (audioRun events) = true
      <-> loadingPromise (audioRun events) = Some Fulfilled).
Proof.
  destruct (audio_invariant events) as (H1 & H2 & _ & H4).
  split; [| split; [| exact H4]].
  - rewrite H1. destruct (audioCtx (audioRun events)); lia.
  - rewrite H2. destruct (loadingPromise (audioRun events)); lia.
Qed.

(** X22: once the load has settled, a call of [getPiano] changes nothing
    and gives the same outcome again: the player when the load was
    fulfilled, the rejected promise when it failed, so that a failed load
    is never tried again. *)
Theorem settled_load_is_final (events : list AudioEvent) :
  let s := audioRun events in
  (loadingPromise s = Some Fulfilled -> getPiano s = (s, ThePiano))
  /\ (loadingPromise s = Some Rejected -> getPiano s = (s, TheLoad Rejected)).
Proof.
  destruct (audio_invariant events) as (_ & _ & H3 & H4). simpl.
  set (s := audioRun events) in *. split; intros Hl.
  - assert (Hc : audioCtx s = true) by (apply H3; rewrite Hl; discriminate).
    assert (Hp : piano s = true) by now apply H4.
    unfold getPiano, getAudioContext. rewrite Hc, Hp. reflexivity.
  - assert (Hc : audioCtx s = true) by (apply H3; rewrite Hl; discriminate).
    assert (Hp : piano s = false).
    { destruct (piano s) eqn:E; [| reflexivity].
      assert (loadingPromise s = Some Fulfilled) by (now apply H4). congruence. }
    unfold getPiano, getAudioContext. rewrite Hc, Hp, Hl. reflexivity.
Qed.

Lemma settled_load_is_final_witness :
  getPiano (audioRun [CallGetPiano; CallGetPiano; Settle false])
  = (audioRun [CallGetPiano; CallGetPiano; Settle false], TheLoad Rejected)
  /\ getPiano (audioRun [CallGetPiano; Settle true; CallGetPiano])
     = (audioRun [CallGetPiano; Settle true; CallGetPiano], ThePiano).
Proof.
  split.
  - apply (proj2 (settled_load_is_final [CallGetPiano; CallGetPiano; Settle false])).
    reflexivity.
  - apply (proj1 (settled_load_is_final [CallGetPiano; Settle true; CallGetPiano])).
    reflexivity.
Defined.

(** ** What a draw can give, and how a round goes on *)

Lemma Zpos_of_nat (n : nat) : (0 < n)%nat -> Z.pos (Pos.of_nat n) = Z.of_nat n.
Proof.
  intros Hn. destruct n as [| m]; [lia |].
  rewrite <- Pos.of_nat_succ, Znat.Zpos_P_of_succ_nat. lia.
Qed.

Lemma floorIndex_ratio (k n : nat) :
  (k < n)%nat -> floorIndex (Z.of_nat k # Pos.of_nat n) n = k.
Proof.
  intros Hk. unfold floorIndex.
  assert (Hq : ((Z.of_nat k # Pos.of_nat n) * inject_Z (Z.of_nat n)
                == inject_Z (Z.of_nat k))%Q).
  { unfold Qeq, Qmult, inject_Z. simpl.
    rewrite Pos.mul_1_r, Z.mul_1_r, Zpos_of_nat by lia. reflexivity. }
  rewrite Hq, Qfloor_Z. apply Nat2Z.id.
Qed.

(** X23: the sequence that was just played can come again: in every state
    the component reaches, each member of the collection, whichever it is,
    is the one [startRound] chooses for some value of [Math.random()]. *)
Theorem every_member_can_be_drawn (raw : jsstring) (a : App) (s : SeqRef) :
  reachable raw a -> In s (items (sequences (hooks a))) ->
  exists rnd, (0 <= rnd)%Q /\ (rnd < 1)%Q
              /\ current (hooks (startRound rnd a)) = Some s.
Proof.
  intros Hr Hin. destruct (In_nth_error _ _ Hin) as (k & Hk).
  assert (Hlt : (k < List.length (items (sequences (hooks a))))%nat)
    by (apply nth_error_Some; congruence).
  set (n := List.length (items (sequences (hooks a)))) in *.
  exists (Z.of_nat k # Pos.of_nat n).
  assert (H0 : (0 <= Z.of_nat k # Pos.of_nat n)%Q) by (unfold Qle; simpl; lia).
  assert (H1 : (Z.of_nat k # Pos.of_nat n < 1)%Q).
  { unfold Qlt. simpl. rewrite Z.mul_1_r, Zpos_of_nat by lia. lia. }
  assert (Hne : items (sequences (hooks a)) <> [])
    by (intros E; rewrite E in Hin; contradiction).
  split; [assumption |]. split; [assumption |].
  rewrite (startRound_draws_from_all raw a _ Hr Hne).
  rewrite pickRandom_null_index by assumption.
  fold n. now rewrite floorIndex_ratio.
Qed.

Lemma every_member_can_be_drawn_witness :
  exists rnd, (0 <= rnd)%Q /\ (rnd < 1)%Q
              /\ current (hooks (startRound rnd firstRoundDone))
                 = Some (mkRef 2 (mkSequence [lit "C4"] [1%nat])).
Proof.
  apply (every_member_can_be_drawn (lit "C;D") firstRoundDone).
  - exact firstRoundDone_reachable.
  - vm_compute. auto.
Defined.

(** X24: the state [playing] always ends in [answering]: from any state
    the component reaches in which it is [playing], once the time is past
    the pending playbacks the state is [answering], no playback is in
    flight, and the chosen sequence, the answer and the absent verdict are
    as they were. *)
Theorem playing_ends_in_answering (raw : jsstring) (a : App) (t : N) :
  reachable raw a -> gameState (hooks a) = playing ->
  Forall (fun tm => due tm <= t) (timers a) ->
  gameState (hooks (advanceTo t a)) = answering
  /\ inFlight (advanceTo t a) = false
  /\ isPlaying (hooks (advanceTo t a)) = false
  /\ current (hooks (advanceTo t a)) = current (hooks a)
  /\ userAnswer (hooks (advanceTo t a)) = userAnswer (hooks a)
  /\ isCorrect (hooks (advanceTo t a)) = None.
Proof.
  intros Hr Hp Hall. pose proof (staleClosure_reachable raw a Hr) as Hs.
  destruct (advance_drains raw a t Hr Hall) as (Hnil & Hip & Hg).
  destruct (runDue_frame (List.length (timers a)) t a Hs)
    as (H1 & H2 & H3 & _ & _ & H6).
  destruct (verdict_matches_answer raw a (reachable_reaches raw a Hr)) as (_ & Hv & _).
  destruct Hv as [Hc _]; [rewrite Hp; discriminate |].
  split.
  - change (gameState (hooks (advanceTo t a)))
      with (gameState (hooks (runDue (List.length (timers a)) t a))) in *.
    destruct H6 as [E | E]; [| exact E]. rewrite E, Hp in Hg. congruence.
  - split; [unfold inFlight; now rewrite Hnil |]. split; [assumption |].
    split; [exact H1 |]. split; [exact H2 |].
    change (isCorrect (hooks (advanceTo t a)))
      with (isCorrect (hooks (runDue (List.length (timers a)) t a))).
    now rewrite H3.
Qed.

Lemma playing_ends_in_answering_witness :
  let a := keyHandler 0 KeyEnter firstRoundDone in
  gameState (hooks (advanceTo 5000 a)) = answering
  /\ inFlight (advanceTo 5000 a) = false
  /\ isPlaying (hooks (advanceTo 5000 a)) = false
  /\ current (hooks (advanceTo 5000 a)) = current (hooks a)
  /\ userAnswer (hooks (advanceTo 5000 a)) = userAnswer (hooks a)
  /\ isCorrect (hooks (advanceTo 5000 a)) = None.
Proof.
  apply (playing_ends_in_answering (lit "C;D")).
  - apply reach_key; [exact firstRoundDone_reachable | apply Qle_refl | reflexivity].
  - reflexivity.
  - vm_compute. repeat constructor. discriminate.
Defined.
